(** * A shallow embedding of [LexicalAnalyzer] (tokenization.h)

    The scanner of the repository is one C++ class: a [std::string] input,
    a [size_t] cursor, a keyword table and the accumulated "cleaned" text.
    [tokenize] walks the input once and emits a vector of tokens.

    The embedding keeps the shape of the source:
    - [size_t] is [N] with the wrap-around at [2^64] written out;
    - [std::string] is [string]; every character read goes through an
      indexing policy, so that an access outside the buffer is an explicit
      fault of the model instead of an arbitrary value;
    - the [unordered_map] of keywords is a [gmap];
    - the body of the [while] loop of [tokenize] is the function [step],
      and [run] iterates it with fuel. *)

From Stdlib Require Import NArith Ascii String Bool Lia.
From stdpp Require Import base option list gmap strings sorting.

Local Open Scope N_scope.

(** ** [size_t] arithmetic *)

Module SizeT.
Definition modulus : N := 2 ^ 64.
Definition wrap (x : N) : N := x mod modulus.
Definition add (a b : N) : N := wrap (a + b).
Definition sub (a b : N) : N := wrap (a + modulus - wrap b).
Definition incr (a : N) : N := add a 1.
Definition decr (a : N) : N := sub a 1.
End SizeT.

(** ** Results of fallible operations *)

Inductive Fault : Type :=
| OutOfBounds (i : N)   (* a character read outside the buffer *)
| OutOfRange            (* [substr] called with a start beyond [size()] *)
| Exhausted.            (* a helper loop of the model ran out of fuel *)

Inductive Res (A : Type) : Type :=
| Ok (a : A)
| Err (f : Fault).
Arguments Ok {A} a.
Arguments Err {A} f.

Global Instance Res_bind : MBind Res := fun A B k m =>
  match m with
  | Ok a => k a
  | Err f => Err f
  end.

(** [a && b] of C++ where only [b] reads memory: [b] is not evaluated when
    [a] is false. *)
Definition andM (a : bool) (b : Res bool) : Res bool :=
  if a then b else Ok false.

(** ** Characters and strings *)

Definition NUL : ascii := "000"%char.
Definition dquote : ascii := "034"%char.
Definition backslash : ascii := "092"%char.
Definition underscore : ascii := "095"%char.

(** Comparison of two [char]s.  The source only compares against the
    letters and digits, all below 128, so the signedness of [char] does not
    change any outcome. *)
Definition char_le (a b : ascii) : bool := N_of_ascii a <=? N_of_ascii b.

Definition size (s : string) : N := N.of_nat (String.length s).

(** [std::string::max_size()] is below [2^63] on the 64-bit targets. *)
Definition max_size : N := 2 ^ 63 - 1.
Definition fits (s : string) : Prop := size s <= max_size.

Definition char_at (s : string) (i : N) : ascii :=
  default NUL (String.get (N.to_nat i) s).

(** An indexing policy: which indices may be read. *)
Definition Indexing : Type := string -> N -> Res ascii.

(** Indexing as an option: only [0 .. size()-1] can be read
    (the behaviour of [std::string::at]). *)
Definition checked : Indexing := fun s i =>
  if i <? size s then Ok (char_at s i) else Err (OutOfBounds i).

(** [std::string::operator[]]: index [size()] is readable too and holds the
    terminating null character; anything beyond is undefined. *)
Definition subscript : Indexing := fun s i =>
  if i <? size s then Ok (char_at s i)
  else if i =? size s then Ok NUL
  else Err (OutOfBounds i).

(** [std::string::substr(pos, n)]: throws when [pos > size()], otherwise
    returns at most [n] characters. *)
Definition substr (s : string) (pos n : N) : Res string :=
  if size s <? pos then Err OutOfRange
  else Ok (String.substring (N.to_nat pos) (N.to_nat n) s).

Definition string1 (c : ascii) : string := String c EmptyString.

(** ** Tokens *)

Inductive TokenType : Type :=
| KEYWORD
| IDENTIFIER
| LITERAL
| OPERATOR
| SEPARATOR
| UNKNOWN.

Global Instance TokenType_eq_dec : EqDecision TokenType.
Proof. solve_decision. Defined.

Record Token : Type := mkToken { type : TokenType; value : string }.

Global Instance Token_eq_dec : EqDecision Token.
Proof. solve_decision. Defined.

(** ** The keyword table *)

Definition initKeywords : gmap string TokenType :=
  <["vector" := KEYWORD]> (
  <["fstream" := KEYWORD]> (
  <["iostream" := KEYWORD]> (
  <["std" := KEYWORD]> (
  <["namespace" := KEYWORD]> (
  <["using" := KEYWORD]> (
  <["#include" := KEYWORD]> (
  <["for" := KEYWORD]> (
  <["endl" := KEYWORD]> (
  <["cout" := KEYWORD]> (
  <["void" := KEYWORD]> (
  <["do" := KEYWORD]> (
  <["string" := KEYWORD]> (
  <["return" := KEYWORD]> (
  <["while" := KEYWORD]> (
  <["else" := KEYWORD]> (
  <["if" := KEYWORD]> (
  <["float" := KEYWORD]> (
  <["int" := KEYWORD]> ∅)))))))))))))))))).

(** [keywords.find(word) != keywords.end()] *)
Definition is_keyword (word : string) : bool :=
  bool_decide (is_Some (initKeywords !! word)).

(** ** Character classes *)

Definition isWhitespace (c : ascii) : bool :=
  Ascii.eqb c " " || Ascii.eqb c "009" || Ascii.eqb c "010" || Ascii.eqb c "013".

Definition isAlpha (c : ascii) : bool :=
  (char_le "a" c && char_le c "z") || (char_le "A" c && char_le c "Z").

Definition isDigit (c : ascii) : bool := char_le "0" c && char_le c "9".

Definition isAlphaNumeric (c : ascii) : bool := isAlpha c || isDigit c.

Definition is_operator_char (c : ascii) : bool :=
  Ascii.eqb c "+" || Ascii.eqb c "-" || Ascii.eqb c "*" || Ascii.eqb c "="
  || Ascii.eqb c "<" || Ascii.eqb c ">" || Ascii.eqb c "^" || Ascii.eqb c "/".

Definition is_separator_char (c : ascii) : bool :=
  Ascii.eqb c "(" || Ascii.eqb c ")" || Ascii.eqb c "{" || Ascii.eqb c "}"
  || Ascii.eqb c "," || Ascii.eqb c ";".

(** ** The state of a scan

    The members of [LexicalAnalyzer] ([input], [position], [cleanedInput])
    together with the two locals of [tokenize]. *)

Record State : Type := mkState {
  input : string;
  position : N;
  cleanedInput : string;
  tokens : list Token;
  inMultiLineComment : bool
}.

Definition with_position (s : State) (p : N) : State :=
  mkState (input s) p (cleanedInput s) (tokens s) (inMultiLineComment s).

Definition with_comment (s : State) (b : bool) : State :=
  mkState (input s) (position s) (cleanedInput s) (tokens s) b.

(** [tokens.emplace_back(t, v)] *)
Definition emplace_back (s : State) (t : TokenType) (v : string) : State :=
  mkState (input s) (position s) (cleanedInput s)
          (tokens s ++ [mkToken t v]) (inMultiLineComment s).

(** [cleanedInput += v] *)
Definition append_cleaned (s : State) (v : string) : State :=
  mkState (input s) (position s) (cleanedInput s +:+ v)
          (tokens s) (inMultiLineComment s).

(** The analyzer right after its constructor, at the entry of [tokenize]. *)
Definition init (source : string) : State :=
  mkState source 0 EmptyString [] false.

Section Scanner.

(** How [input[i]] is evaluated. *)
Variable idx : Indexing.

(** *** [getNextWord] *)

(** The [while] loop of [getNextWord]; [input[position]] is read once per
    evaluation of the condition. *)
Fixpoint word_loop (fuel : nat) (inp : string) (pos : N) : Res N :=
  if pos <? size inp then
    c ← idx inp pos;
    if isAlphaNumeric c && negb (Ascii.eqb c underscore) then
      match fuel with
      | O => Err Exhausted
      | S fuel => word_loop fuel inp (SizeT.incr pos)
      end
    else Ok pos
  else Ok pos.

Definition getNextWord (inp : string) (position0 : N) : Res (string * N) :=
  let start := position0 in
  pos ← word_loop (String.length inp) inp position0;
  if pos <? size inp then
    c ← idx inp pos;
    if negb (isAlphaNumeric c) then
      (* [position == '_']: the cursor itself is compared with 95 *)
      look ← andM (pos =? N_of_ascii underscore)
                   (c1 ← idx inp (SizeT.incr pos); Ok (isAlphaNumeric c1));
      let pos := if (look : bool) then SizeT.incr pos else pos in
      result ← substr inp start (SizeT.sub pos start);
      Ok (result, SizeT.decr pos)
    else Ok (EmptyString, pos)
  else Ok (EmptyString, pos).

(** *** [getNextNumber] *)

Fixpoint number_loop (fuel : nat) (inp : string) (pos : N) (hasDecimal : bool)
  : Res N :=
  if pos <? size inp then
    c ← idx inp pos;
    if isDigit c || Ascii.eqb c "." then
      if Ascii.eqb c "." && hasDecimal then Ok pos   (* break *)
      else
        match fuel with
        | O => Err Exhausted
        | S fuel =>
            number_loop fuel inp (SizeT.incr pos)
                        (if Ascii.eqb c "." then true else hasDecimal)
        end
    else Ok pos
  else Ok pos.

Definition getNextNumber (inp : string) (position0 : N) : Res (string * N) :=
  let start := position0 in
  pos ← number_loop (String.length inp) inp position0 false;
  result ← substr inp start (SizeT.sub pos start);
  Ok (result, pos).

(** *** The loops written inside [tokenize] *)

(** Skipping a [//] comment up to the next newline. *)
Fixpoint line_loop (fuel : nat) (inp : string) (pos : N) : Res N :=
  if pos <? size inp then
    c ← idx inp pos;
    if negb (Ascii.eqb c "010") then
      match fuel with
      | O => Err Exhausted
      | S fuel => line_loop fuel inp (SizeT.incr pos)
      end
    else Ok pos
  else Ok pos.

(** The identifier loop of the branch for a leading underscore. *)
Fixpoint underscore_loop (fuel : nat) (inp : string) (pos : N) (word : string)
  : Res (N * string) :=
  if pos <? size inp then
    c ← idx inp pos;
    if isAlphaNumeric c || Ascii.eqb c underscore then
      match fuel with
      | O => Err Exhausted
      | S fuel => underscore_loop fuel inp (SizeT.incr pos) (word +:+ string1 c)
      end
    else Ok (pos, word)
  else Ok (pos, word).

(** The string-literal loop, entered just after the opening quote. *)
Fixpoint string_loop (fuel : nat) (inp : string) (pos : N)
         (literalString : string) (inEscapedQuote : bool) : Res (N * string) :=
  if pos <? size inp then
    c ← idx inp pos;
    if Ascii.eqb c dquote && negb inEscapedQuote then
      Ok (SizeT.incr pos, literalString)     (* closing quote; break *)
    else
      match fuel with
      | O => Err Exhausted
      | S fuel =>
          if Ascii.eqb c backslash then
            string_loop fuel inp (SizeT.incr pos) literalString true
          else
            string_loop fuel inp (SizeT.incr pos)
                        (literalString +:+ string1 c) false
      end
  else Ok (pos, literalString).

(** *** One iteration of the main loop, by parts *)

(** [input[position+1] == expected] *)
Definition lookahead (inp : string) (pos : N) (expected : ascii) : Res bool :=
  c1 ← idx inp (SizeT.incr pos);
  Ok (Ascii.eqb c1 expected).

(** Lines 160-164: the preprocessor-directive check. *)
Definition directive (currentChar : ascii) (s : State) : Res State :=
  if Ascii.eqb currentChar "#" then
    '(word, pos) ← getNextWord (input s) (position s);
    Ok (append_cleaned (emplace_back (with_position s pos) KEYWORD word) word)
  else Ok s.

(** Lines 181-184: the end of a multi-line comment. *)
Definition comment_end (currentChar : ascii) (s : State) : Res State :=
  isEnd ← andM (inMultiLineComment s && Ascii.eqb currentChar "*")
                (lookahead (input s) (position s) "/");
  if (isEnd : bool) then
    Ok (with_position (with_comment s false) (SizeT.add (position s) 2))
  else Ok s.

(** A token made of the current character alone. *)
Definition single (t : TokenType) (currentChar : ascii) (s : State) : State :=
  let s := append_cleaned (emplace_back s t (string1 currentChar))
                          (string1 currentChar) in
  with_position s (SizeT.incr (position s)).

(** A two-character shift operator. *)
Definition shift (op : string) (s : State) : State :=
  let s := append_cleaned (emplace_back s OPERATOR op) op in
  with_position s (SizeT.add (position s) 2).

(** Lines 189-293: the chain of classification branches. *)
Definition dispatch (currentChar : ascii) (s : State) : Res State :=
  let inp := input s in
  if isAlpha currentChar then
    '(word, pos) ← getNextWord inp (position s);
    let s := with_position s pos in
    let s := if is_keyword word then emplace_back s KEYWORD word
             else emplace_back s IDENTIFIER word in
    Ok (append_cleaned s word)
  else if isAlpha currentChar || Ascii.eqb currentChar underscore then
    '(pos, word) ← underscore_loop (String.length inp) inp (position s)
                                    EmptyString;
    Ok (append_cleaned (emplace_back (with_position s pos) IDENTIFIER word) word)
  else if isDigit currentChar then
    '(number, pos) ← getNextNumber inp (position s);
    (* both arms of the test for a decimal point emit LITERAL *)
    Ok (append_cleaned (emplace_back (with_position s pos) LITERAL number) number)
  else
    isShl ← andM (Ascii.eqb currentChar "<")
                  (lookahead inp (position s) "<");
    if (isShl : bool) then Ok (shift "<<" s)
    else
      isShr ← andM (Ascii.eqb currentChar ">")
                    (lookahead inp (position s) ">");
      if (isShr : bool) then Ok (shift ">>" s)
      else if is_operator_char currentChar then
        Ok (single OPERATOR currentChar s)
      else if is_separator_char currentChar then
        Ok (single SEPARATOR currentChar s)
      else if Ascii.eqb currentChar dquote then
        '(pos, literalString) ←
          string_loop (String.length inp) inp (SizeT.incr (position s))
                      EmptyString false;
        let s := with_position s pos in
        let s := if String.eqb literalString EmptyString then s
                 else emplace_back s LITERAL literalString in
        Ok (append_cleaned s (String dquote literalString +:+ string1 dquote))
      else
        Ok (single UNKNOWN currentChar s).

(** Lines 187-295: tokens are only produced outside a multi-line comment,
    and the cursor is advanced once more after whichever branch ran. *)
Definition classify (currentChar : ascii) (s : State) : Res State :=
  if negb (inMultiLineComment s) then
    s ← dispatch currentChar s;
    Ok (with_position s (SizeT.incr (position s)))
  else Ok s.

(** Lines 180-295, shared by the paths that reach them. *)
Definition finish (currentChar : ascii) (s : State) : Res State :=
  s ← comment_end currentChar s;
  classify currentChar s.

(** One evaluation of the loop condition and, when it holds, of the loop
    body: [None] when the loop exits. *)
Definition step (s : State) : Res (option State) :=
  if position s <? size (input s) then
    currentChar ← idx (input s) (position s);
    if isWhitespace currentChar then
      Ok (Some (with_position s (SizeT.incr (position s))))   (* continue *)
    else
      s ← directive currentChar s;
      isBlock ← andM (Ascii.eqb currentChar "/")
                      (lookahead (input s) (position s) "*");
      if (isBlock : bool) then
        s ← finish currentChar
               (with_position (with_comment s true) (SizeT.add (position s) 2));
        Ok (Some s)
      else
        isLine ← andM (Ascii.eqb currentChar "/")
                       (lookahead (input s) (position s) "/");
        if (isLine : bool) then
          pos ← line_loop (String.length (input s)) (input s) (position s);
          Ok (Some (with_position s pos))                     (* continue *)
        else
          s ← finish currentChar s;
          Ok (Some s)
  else Ok None.

(** *** The main loop *)

Inductive Outcome : Type :=
| Returned (s : State)     (* the loop ended: [tokenize] returns *)
| Faulted (f : Fault)      (* an access outside the buffer *)
| Running (s : State).     (* still inside the loop after [fuel] iterations *)

Fixpoint run (fuel : nat) (s : State) : Outcome :=
  match step s with
  | Err f => Faulted f
  | Ok None => Returned s
  | Ok (Some s') =>
      match fuel with
      | O => Running s'
      | S fuel => run fuel s'
      end
  end.

Definition tokenize (fuel : nat) (source : string) : Outcome :=
  run fuel (init source).

End Scanner.

(** ** The reporting functions *)

(** [getTokenTypeName]; the [default] branch of the [switch] is not
    reachable from an enumerator. *)
Definition getTokenTypeName (t : TokenType) : string :=
  match t with
  | KEYWORD => "KEYWORD"
  | IDENTIFIER => "IDENTIFIER"
  | LITERAL => "LITERAL"
  | OPERATOR => "OPERATOR"
  | SEPARATOR => "SEPARATOR"
  | UNKNOWN => "UNKNOWN"
  end.

(** The underlying value of an enumerator: the order of the keys of a
    [std::map<TokenType, ...>]. *)
Definition TokenType_value (t : TokenType) : nat :=
  match t with
  | KEYWORD => 0
  | IDENTIFIER => 1
  | LITERAL => 2
  | OPERATOR => 3
  | SEPARATOR => 4
  | UNKNOWN => 5
  end.

Definition TokenType_of_value (n : nat) : TokenType :=
  match n with
  | 0 => KEYWORD
  | 1 => IDENTIFIER
  | 2 => LITERAL
  | 3 => OPERATOR
  | 4 => SEPARATOR
  | _ => UNKNOWN
  end%nat.

Global Instance TokenType_countable : Countable TokenType :=
  inj_countable' TokenType_value TokenType_of_value
    (fun t => match t with
              | KEYWORD | IDENTIFIER | LITERAL | OPERATOR | SEPARATOR | UNKNOWN =>
                  eq_refl
              end).

Definition all_token_types : list TokenType :=
  [KEYWORD; IDENTIFIER; LITERAL; OPERATOR; SEPARATOR; UNKNOWN].

(** [tokenCategories[token.type].insert(token.value)] *)
Definition insert_token (m : gmap TokenType (gset string)) (token : Token)
  : gmap TokenType (gset string) :=
  <[type token := default ∅ (m !! type token) ∪ {[value token]}]> m.

(** The map built by the first loop of [printUniqueTokens]. *)
Definition tokenCategories (tokens : list Token) : gmap TokenType (gset string) :=
  foldl insert_token ∅ tokens.

(** The order in which a [std::set<string>] is iterated. *)
Definition set_order (values : gset string) : list string :=
  merge_sort String.le (elements values).

(** The order in which the printing loops visit the map: the categories by
    increasing enumerator, the lexemes of each by increasing string. *)
Definition visit_order (m : gmap TokenType (gset string))
  : list (TokenType * list string) :=
  omap (fun t => (fun values => (t, set_order values)) <$> m !! t)
       all_token_types.

(** ** Vocabulary of the statements *)

(** Category sequence of a token vector. *)
Definition categories (ts : list Token) : list TokenType := map type ts.

(** What [tokenize] hands back to its caller, when it returns: the token
    vector and the cleaned text. *)
Definition returned (o : Outcome) : option (list Token * string) :=
  match o with
  | Returned s => Some (tokens s, cleanedInput s)
  | _ => None
  end.

(** The text of a string literal as it is appended to the cleaned text. *)
Definition quoted (body : string) : string :=
  String dquote body +:+ string1 dquote.

(** The table of keywords as the specification lists it. *)
Definition keyword_table : list string :=
  [ "int"; "float"; "if"; "else"; "while"; "return"; "string"; "do"; "void";
    "cout"; "endl"; "for"; "#include"; "using"; "namespace"; "std";
    "iostream"; "fstream"; "vector" ]%string.

(** Characters of a string, and the strings made of double quotes only. *)
Definition chars (s : string) : list ascii := list_ascii_of_string s.

Definition only_quotes (s : string) : Prop := Forall (eq dquote) (chars s).

(** A string with its backslashes removed. *)
Fixpoint drop_backslashes (s : string) : string :=
  match s with
  | EmptyString => EmptyString
  | String c r =>
      if Ascii.eqb c backslash then drop_backslashes r
      else String c (drop_backslashes r)
  end.

(** [extends s s']: [s'] scans the same input as [s], its token vector
    extends the one of [s], and when no token was added the cleaned text
    grew by double quotes only. *)
Definition extends (s s' : State) : Prop :=
  input s' = input s /\
  exists new, tokens s' = tokens s ++ new /\
    (new = [] -> exists qs, only_quotes qs /\
                            cleanedInput s' = cleanedInput s +:+ qs).

(** The state after the iteration that scans a string literal, given what
    the literal loop returned. *)
Definition after_literal (s : State) (pos : N) (lit : string) : State :=
  mkState (input s) (SizeT.incr pos) (cleanedInput s +:+ quoted lit)
          (if String.eqb lit EmptyString then tokens s
           else tokens s ++ [mkToken LITERAL lit])
          false.

(** The string-literal rule of the specification, read on the text that
    follows the opening quote: characters are consumed until an unescaped
    quote; a backslash is dropped and protects the next character.
    [Some text] is the content collected when the text ends before a closing
    quote is found, [None] means that a closing quote is found. *)
Fixpoint unterminated_literal (body : string) (escaped : bool) : option string :=
  match body with
  | EmptyString => Some EmptyString
  | String c rest =>
      if Ascii.eqb c dquote && negb escaped then None
      else if Ascii.eqb c backslash then unterminated_literal rest true
      else String c <$> unterminated_literal rest false
  end.

(** ** Vocabulary of the further properties *)

(** Every character of [s] satisfies [P]. *)
Definition all_chars (P : ascii -> bool) (s : string) : Prop :=
  Forall (fun c => P c = true) (chars s).

(** The category that the word branch gives to a lexeme. *)
Definition word_category (word : string) : TokenType :=
  if is_keyword word then KEYWORD else IDENTIFIER.

(** The shape of a number lexeme: digits with at most one decimal point,
    [hasDecimal] telling whether a point was seen before. *)
Fixpoint number_text (s : string) (hasDecimal : bool) : bool :=
  match s with
  | EmptyString => true
  | String c r =>
      if isDigit c then number_text r hasDecimal
      else if Ascii.eqb c "." then negb hasDecimal && number_text r true
      else false
  end.

(** Whether a decimal point was seen once [s] has been read. *)
Fixpoint seen_point (s : string) (hasDecimal : bool) : bool :=
  match s with
  | EmptyString => hasDecimal
  | String c r => seen_point r (hasDecimal || Ascii.eqb c ".")
  end.

(** What may follow a number lexeme: nothing, or a character that is not a
    digit and that is a point only if the lexeme already has one. *)
Definition number_stops (rest : string) (hasDecimal : bool) : Prop :=
  match rest with
  | EmptyString => True
  | String t _ =>
      isDigit t = false /\ (Ascii.eqb t "." = true -> hasDecimal = true)
  end.

(** The category of a token made of one character. *)
Definition single_category (c : ascii) : TokenType :=
  if is_operator_char c then OPERATOR
  else if is_separator_char c then SEPARATOR
  else UNKNOWN.

Definition not_newline (c : ascii) : bool := negb (Ascii.eqb c "010").

(** What may follow the text of a line comment: nothing, or a newline. *)
Definition line_ends (rest : string) : Prop :=
  match rest with
  | EmptyString => True
  | String t _ => t = "010"%char
  end.

(** The characters that no earlier branch of the loop body takes. *)
Definition lone_character (c : ascii) : bool :=
  negb (isWhitespace c) && negb (Ascii.eqb c "#") && negb (isAlpha c)
  && negb (Ascii.eqb c underscore) && negb (isDigit c)
  && negb (Ascii.eqb c dquote).

(** [c] followed by [n] opens a comment or is a shift operator. *)
Definition starts_pair (c n : ascii) : bool :=
  (Ascii.eqb c "/" && (Ascii.eqb n "*" || Ascii.eqb n "/"))
  || (Ascii.eqb c "<" && Ascii.eqb n "<")
  || (Ascii.eqb c ">" && Ascii.eqb n ">").

(** Sum of the lengths of the lexemes of a token vector. *)
Definition lexeme_total (ts : list Token) : N :=
  foldr (fun t n => size (value t) + n) 0 ts.

(** Whether a slash is followed by a star somewhere in [s]. *)
Fixpoint has_block_opener (s : string) : bool :=
  match s with
  | EmptyString => false
  | String c r =>
      (Ascii.eqb c "/" &&
       match r with String d _ => Ascii.eqb d "*" | EmptyString => false end)
      || has_block_opener r
  end.

(** [advances s s']: the iteration from [s] to [s'] moves the cursor forward
    inside [size() + 2], and the lexemes it emits are no longer than the part
    of the buffer it went over. *)
Definition advances (s s' : State) : Prop :=
  input s' = input s /\
  inMultiLineComment s' = inMultiLineComment s /\
  position s < position s' <= size (input s) + 2 /\
  lexeme_total (tokens s') + position s
  <= lexeme_total (tokens s) + N.min (position s') (size (input s)).

(** [grows s s']: the input is the same, and the token vector and the cleaned
    text of [s'] extend those of [s]. *)
Definition grows (s s' : State) : Prop :=
  input s' = input s
  /\ (exists new, tokens s' = tokens s ++ new)
  /\ (exists text, cleanedInput s' = cleanedInput s +:+ text).

(** A character that neither ends a string literal nor escapes. *)
Definition plain_char (c : ascii) : bool :=
  negb (Ascii.eqb c dquote) && negb (Ascii.eqb c backslash).

(** The tests that the loop body applies to the current character. *)
Definition character_tests (c : ascii) : list bool :=
  [ isWhitespace c; Ascii.eqb c "#"; isAlpha c; Ascii.eqb c underscore;
    isDigit c; is_operator_char c; is_separator_char c; Ascii.eqb c dquote ].

(** A character of an identifier that begins with an underscore. *)
Definition identifier_char (c : ascii) : bool :=
  isAlphaNumeric c || Ascii.eqb c underscore.

(** What may follow an identifier: nothing, or a character that is not part
    of one. *)
Definition identifier_ends (rest : string) : Prop :=
  match rest with
  | EmptyString => True
  | String t _ => identifier_char t = false
  end.

(** ** Vocabulary of the scan of one literal and of short inputs *)

(** The text of a string literal, read on what follows its opening quote:
    the characters up to the first quote that no backslash escapes (a
    backslash protects the character after it), or up to the end of the
    input; the boolean tells whether that closing quote was found. *)
Fixpoint literal_inner (body : string) (escaped : bool) : string * bool :=
  match body with
  | EmptyString => (EmptyString, false)
  | String c rest =>
      if Ascii.eqb c dquote && negb escaped then (EmptyString, true)
      else
        let '(inner, closed) := literal_inner rest (Ascii.eqb c backslash) in
        (String c inner, closed)
  end.

(** The lexeme that ends an input: one character, a shift operator, a string
    literal without escapes, or a number. *)
Inductive Tail : Type :=
| TailChar (c : ascii)
| TailShift (c : ascii)
| TailLiteral (c : ascii) (body : string)
| TailNumber (d : ascii) (num : string).






(** A number does not follow a word: it stands alone. *)
Definition tail_follows (word : string) (t : Tail) : Prop :=
  match t with
  | TailNumber _ _ => word = EmptyString
  | _ => True
  end.

(** * Properties *)

(** Reduction of a bind whose first computation is known. *)
Tactic Notation "bind_step" := cbn beta iota delta [mbind Res_bind].
Tactic Notation "bind_step" "in" hyp(H) :=
  cbn beta iota delta [mbind Res_bind] in H.

(** ** The main loop *)

Section RunFacts.
Variable idx : Indexing.

Lemma run_unfold fuel s :
  run idx (S fuel) s =
  match step idx s with
  | Err f => Faulted f
  | Ok None => Returned s
  | Ok (Some s') => run idx fuel s'
  end.
Proof. simpl. destruct (step idx s) as [[s'|]|f]; reflexivity. Qed.

(** A state that an iteration leaves unchanged is never left. *)
Lemma run_stuck s :
  step idx s = Ok (Some s) -> forall fuel, run idx fuel s = Running s.
Proof.
  intros Hs fuel. induction fuel as [|fuel IH].
  - simpl. rewrite Hs. reflexivity.
  - rewrite run_unfold, Hs. exact IH.
Qed.

(** More fuel does not change a scan that returned. *)
Lemma run_more fuel s r :
  run idx fuel s = Returned r ->
  forall fuel', (fuel <= fuel')%nat -> run idx fuel' s = Returned r.
Proof.
  revert s. induction fuel as [|fuel IH]; intros s Hr fuel' Hle.
  - simpl in Hr. destruct (step idx s) as [[s'|]|f] eqn:Hs; try discriminate.
    destruct fuel'; simpl; rewrite Hs; exact Hr.
  - rewrite run_unfold in Hr. destruct fuel' as [|fuel']; [lia|].
    rewrite run_unfold.
    destruct (step idx s) as [[s'|]|f]; try exact Hr.
    apply IH; [exact Hr | lia].
Qed.

End RunFacts.

(** ** Cursor arithmetic *)

Lemma modulus_eq : SizeT.modulus = 18446744073709551616.
Proof. reflexivity. Qed.

Lemma max_size_eq : max_size = 9223372036854775807.
Proof. reflexivity. Qed.

Lemma incr_below p n :
  p < n -> n <= max_size -> SizeT.incr p = p + 1.
Proof.
  intros Hp Hn. unfold SizeT.incr, SizeT.add, SizeT.wrap.
  rewrite max_size_eq in Hn. apply N.mod_small. rewrite modulus_eq. lia.
Qed.

Lemma add2_below p n :
  p < n -> n <= max_size -> SizeT.add p 2 = p + 2.
Proof.
  intros Hp Hn. unfold SizeT.add, SizeT.wrap.
  rewrite max_size_eq in Hn. apply N.mod_small. rewrite modulus_eq. lia.
Qed.

(** ** Reading the buffer *)

Lemma subscript_inside s i :
  i < size s -> subscript s i = Ok (char_at s i).
Proof.
  intros Hi. unfold subscript.
  destruct (N.ltb_spec i (size s)); [reflexivity | lia].
Qed.

Lemma subscript_upto s i :
  i <= size s -> exists c, subscript s i = Ok c.
Proof.
  intros Hi. unfold subscript.
  destruct (N.ltb_spec i (size s)); [eauto|].
  destruct (N.eqb_spec i (size s)); [eauto | lia].
Qed.

Lemma subscript_fault s i j :
  subscript s i = Err (OutOfBounds j) -> size s < i.
Proof.
  unfold subscript. intros H.
  destruct (N.ltb_spec i (size s)); [discriminate|].
  destruct (N.eqb_spec i (size s)); [discriminate | lia].
Qed.

Lemma substr_ok s pos n :
  pos <= size s -> substr s pos n = Ok (String.substring (N.to_nat pos) (N.to_nat n) s).
Proof.
  intros H. unfold substr. destruct (N.ltb_spec (size s) pos); [lia | reflexivity].
Qed.

Section Loops.
Variable inp : string.
Hypothesis Hfits : fits inp.

Lemma word_loop_ok fuel pos :
  size inp <= pos + N.of_nat fuel ->
  exists p, word_loop subscript fuel inp pos = Ok p.
Proof.
  revert pos. induction fuel as [|fuel IH]; intros pos Hf; simpl.
  - destruct (N.ltb_spec pos (size inp)); [lia | eauto].
  - destruct (N.ltb_spec pos (size inp)) as [Hlt|]; [|eauto].
    rewrite (subscript_inside _ _ Hlt). simpl.
    destruct (_ && _); [|eauto].
    apply IH. rewrite (incr_below _ _ Hlt Hfits). lia.
Qed.

Lemma number_loop_ok fuel pos dec :
  size inp <= pos + N.of_nat fuel ->
  exists p, number_loop subscript fuel inp pos dec = Ok p.
Proof.
  revert pos dec. induction fuel as [|fuel IH]; intros pos dec Hf; simpl.
  - destruct (N.ltb_spec pos (size inp)); [lia | eauto].
  - destruct (N.ltb_spec pos (size inp)) as [Hlt|]; [|eauto].
    rewrite (subscript_inside _ _ Hlt). simpl.
    destruct (_ || _); [|eauto].
    destruct (_ && _); [eauto|].
    apply IH. rewrite (incr_below _ _ Hlt Hfits). lia.
Qed.

Lemma line_loop_ok fuel pos :
  size inp <= pos + N.of_nat fuel ->
  exists p, line_loop subscript fuel inp pos = Ok p.
Proof.
  revert pos. induction fuel as [|fuel IH]; intros pos Hf; simpl.
  - destruct (N.ltb_spec pos (size inp)); [lia | eauto].
  - destruct (N.ltb_spec pos (size inp)) as [Hlt|]; [|eauto].
    rewrite (subscript_inside _ _ Hlt). simpl.
    destruct (negb _); [|eauto].
    apply IH. rewrite (incr_below _ _ Hlt Hfits). lia.
Qed.

Lemma underscore_loop_ok fuel pos word :
  size inp <= pos + N.of_nat fuel ->
  exists r, underscore_loop subscript fuel inp pos word = Ok r.
Proof.
  revert pos word. induction fuel as [|fuel IH]; intros pos word Hf; simpl.
  - destruct (N.ltb_spec pos (size inp)); [lia | eauto].
  - destruct (N.ltb_spec pos (size inp)) as [Hlt|]; [|eauto].
    rewrite (subscript_inside _ _ Hlt). simpl.
    destruct (_ || _); [|eauto].
    apply IH. rewrite (incr_below _ _ Hlt Hfits). lia.
Qed.

Lemma string_loop_ok fuel pos lit esc :
  size inp <= pos + N.of_nat fuel ->
  exists r, string_loop subscript fuel inp pos lit esc = Ok r.
Proof.
  revert pos lit esc. induction fuel as [|fuel IH]; intros pos lit esc Hf; simpl.
  - destruct (N.ltb_spec pos (size inp)); [lia | eauto].
  - destruct (N.ltb_spec pos (size inp)) as [Hlt|]; [|eauto].
    rewrite (subscript_inside _ _ Hlt). simpl.
    destruct (_ && _); [eauto|].
    destruct (Ascii.eqb _ _); apply IH;
      rewrite (incr_below _ _ Hlt Hfits); lia.
Qed.

Lemma size_fuel pos : size inp <= pos + N.of_nat (String.length inp).
Proof. unfold size. lia. Qed.

(** Reading [input[position+1]] under a cursor inside the buffer. *)
Lemma peek_ok pos :
  pos < size inp -> exists c, subscript inp (SizeT.incr pos) = Ok c.
Proof.
  intros Hlt. apply subscript_upto.
  rewrite (incr_below _ _ Hlt Hfits). lia.
Qed.

Lemma lookahead_ok pos e :
  pos < size inp -> exists b, lookahead subscript inp pos e = Ok b.
Proof.
  intros Hlt. unfold lookahead.
  destruct (peek_ok pos Hlt) as [c ->]. bind_step. eauto.
Qed.

Lemma guarded_lookahead_ok (a : bool) pos e :
  pos < size inp ->
  exists b, andM a (lookahead subscript inp pos e) = Ok b.
Proof.
  intros Hlt. destruct a; simpl; [apply lookahead_ok; exact Hlt | eauto].
Qed.

Lemma getNextWord_ok pos :
  pos <= size inp -> exists r, getNextWord subscript inp pos = Ok r.
Proof.
  intros Hpos. unfold getNextWord.
  destruct (word_loop_ok (String.length inp) pos (size_fuel pos)) as [p ->].
  bind_step.
  destruct (N.ltb_spec p (size inp)) as [Hlt|]; [|eauto].
  rewrite (subscript_inside _ _ Hlt). bind_step.
  destruct (negb _); [|eauto].
  assert (exists b, andM (p =? N_of_ascii underscore)
            (c1 ← subscript inp (SizeT.incr p); Ok (isAlphaNumeric c1)) = Ok b)
    as [look ->].
  { destruct (p =? _); simpl; [|eauto].
    destruct (peek_ok p Hlt) as [c1 ->]. bind_step. eauto. }
  bind_step. rewrite (substr_ok _ _ _ Hpos). bind_step. eauto.
Qed.

Lemma getNextNumber_ok pos :
  pos <= size inp -> exists r, getNextNumber subscript inp pos = Ok r.
Proof.
  intros Hpos. unfold getNextNumber.
  destruct (number_loop_ok (String.length inp) pos false (size_fuel pos))
    as [p ->].
  bind_step. rewrite (substr_ok _ _ _ Hpos). bind_step. eauto.
Qed.

End Loops.

(** ** One iteration never faults *)

Lemma dispatch_ok c s :
  fits (input s) -> position s < size (input s) ->
  exists r, dispatch subscript c s = Ok r.
Proof.
  intros Hfits Hlt. unfold dispatch.
  destruct (isAlpha c).
  { destruct (getNextWord_ok _ Hfits (position s)) as [[w p] ->]; [lia|].
    bind_step. eauto. }
  destruct (orb false (Ascii.eqb c underscore)).
  { destruct (underscore_loop_ok _ Hfits (String.length (input s)) (position s)
                EmptyString (size_fuel _ _)) as [[p w] ->].
    bind_step. eauto. }
  destruct (isDigit c).
  { destruct (getNextNumber_ok _ Hfits (position s)) as [[w p] ->]; [lia|].
    bind_step. eauto. }
  destruct (guarded_lookahead_ok _ Hfits (Ascii.eqb c "<") _ "<" Hlt) as [shl ->].
  bind_step. destruct shl; [eauto|].
  destruct (guarded_lookahead_ok _ Hfits (Ascii.eqb c ">") _ ">" Hlt) as [shr ->].
  bind_step. destruct shr; [eauto|].
  destruct (is_operator_char c); [eauto|].
  destruct (is_separator_char c); [eauto|].
  destruct (Ascii.eqb c dquote); [|eauto].
  destruct (string_loop_ok _ Hfits (String.length (input s))
              (SizeT.incr (position s)) EmptyString false) as [[p lit] ->].
  { rewrite (incr_below _ _ Hlt Hfits). unfold size. lia. }
  bind_step. eauto.
Qed.

(** The three characters after which the cursor may have moved before the
    classification ([#] through [getNextWord], [/] and [*] through the
    comment markers) are classified without any further read. *)
Lemma dispatch_marker c s :
  c = "#"%char \/ c = "/"%char \/ c = "*"%char ->
  exists r, dispatch subscript c s = Ok r.
Proof.
  intros [-> | [-> | ->]]; unfold dispatch; simpl; eauto.
Qed.

Lemma finish_ok c s :
  fits (input s) ->
  position s < size (input s) \/ c = "#"%char \/ c = "/"%char ->
  exists r, finish subscript c s = Ok r.
Proof.
  intros Hfits Hpos. unfold finish, comment_end.
  assert (Hclass : forall s', input s' = input s ->
            (position s' = position s /\ inMultiLineComment s' = inMultiLineComment s)
            \/ c = "*"%char ->
            exists r, classify subscript c s' = Ok r).
  { intros s' Hin Hs'. unfold classify.
    destruct (negb (inMultiLineComment s')); [|eauto].
    assert (exists r, dispatch subscript c s' = Ok r) as [r ->].
    { destruct Hs' as [[Hp _] | ->]; [|apply dispatch_marker; auto].
      destruct Hpos as [Hlt | Hc].
      - apply dispatch_ok; rewrite ?Hin, ?Hp; assumption.
      - apply dispatch_marker. tauto. }
    bind_step. eauto. }
  destruct (inMultiLineComment s && Ascii.eqb c "*") eqn:Hstar; simpl andM.
  - apply andb_true_iff in Hstar as [_ Hstar].
    apply Ascii.eqb_eq in Hstar. subst c.
    destruct Hpos as [Hlt | [Hc | Hc]]; try discriminate.
    destruct (lookahead_ok _ Hfits (position s) "/" Hlt) as [b ->].
    bind_step. destruct b; bind_step; apply Hclass; auto.
  - bind_step. apply Hclass; auto.
Qed.

Lemma step_ok s :
  fits (input s) -> exists r, step subscript s = Ok r.
Proof.
  intros Hfits. unfold step.
  destruct (N.ltb_spec (position s) (size (input s))) as [Hlt|]; [|eauto].
  rewrite (subscript_inside _ _ Hlt). bind_step.
  set (c := char_at (input s) (position s)).
  destruct (isWhitespace c); [eauto|].
  unfold directive.
  destruct (Ascii.eqb_spec c "#") as [-> | Hhash].
  - destruct (getNextWord_ok _ Hfits (position s)) as [[w p] ->]; [lia|].
    bind_step. simpl andM. bind_step.
    edestruct (finish_ok "#") as [r ->]; [| |bind_step; eauto]; simpl; auto.
  - bind_step.
    destruct (Ascii.eqb_spec c "/") as [-> | Hslash]; simpl andM.
    + destruct (lookahead_ok _ Hfits (position s) "*" Hlt) as [b1 ->].
      destruct (lookahead_ok _ Hfits (position s) "/" Hlt) as [b2 ->].
      bind_step. destruct b1.
      * edestruct (finish_ok "/") as [r ->]; [| |bind_step; eauto]; simpl; auto.
      * bind_step. destruct b2.
        -- destruct (line_loop_ok _ Hfits (String.length (input s)) (position s)
                       (size_fuel _ _)) as [p ->].
           bind_step. eauto.
        -- edestruct (finish_ok "/") as [r ->]; [| |bind_step; eauto]; simpl; auto.
    + bind_step.
      edestruct (finish_ok c) as [r ->]; [| |bind_step; eauto]; simpl; auto.
Qed.

(** ** Strings *)

Lemma chars_app a b : chars (a +:+ b) = chars a ++ chars b.
Proof. unfold chars. induction a as [|c a IH]; simpl; [reflexivity|]. f_equal. exact IH. Qed.

Lemma append_nil_r a : a +:+ EmptyString = a.
Proof. induction a as [|c a IH]; simpl; [reflexivity|]. unfold String.app in *. simpl. f_equal. exact IH. Qed.

Lemma append_assoc a b c : (a +:+ b) +:+ c = a +:+ (b +:+ c).
Proof. induction a as [|x a IH]; unfold String.app in *; simpl; [reflexivity|]. f_equal. exact IH. Qed.

Lemma only_quotes_nil : only_quotes EmptyString.
Proof. constructor. Qed.

Lemma only_quotes_app a b : only_quotes a -> only_quotes b -> only_quotes (a +:+ b).
Proof. unfold only_quotes. rewrite chars_app. apply Forall_app_2. Qed.

Lemma extends_refl s : extends s s.
Proof.
  split; [reflexivity|]. exists []. split; [symmetry; apply app_nil_r|].
  intros _. exists EmptyString. split; [apply only_quotes_nil|].
  symmetry. apply append_nil_r.
Qed.

Lemma extends_trans s1 s2 s3 : extends s1 s2 -> extends s2 s3 -> extends s1 s3.
Proof.
  intros [Hi1 (n1 & Ht1 & Hq1)] [Hi2 (n2 & Ht2 & Hq2)].
  split; [congruence|]. exists (n1 ++ n2).
  split; [rewrite Ht2, Ht1; symmetry; apply app_assoc|].
  intros Hnil. apply app_eq_nil in Hnil as [H1 H2].
  destruct (Hq1 H1) as (q1 & Ho1 & Hc1). destruct (Hq2 H2) as (q2 & Ho2 & Hc2).
  exists (q1 +:+ q2). split; [apply only_quotes_app; assumption|].
  rewrite Hc2, Hc1. apply append_assoc.
Qed.

(** A state that differs only by its cursor and comment flag. *)
Lemma extends_same s s' :
  input s' = input s -> tokens s' = tokens s -> cleanedInput s' = cleanedInput s ->
  extends s s'.
Proof.
  intros Hi Ht Hc. split; [exact Hi|]. exists []. split.
  - rewrite Ht. symmetry. apply app_nil_r.
  - intros _. exists EmptyString. split; [apply only_quotes_nil|].
    rewrite Hc. symmetry. apply append_nil_r.
Qed.

(** A state reached by emitting at least one token. *)
Lemma extends_token s s' t :
  input s' = input s -> tokens s' = tokens s ++ [t] -> extends s s'.
Proof.
  intros Hi Ht. split; [exact Hi|]. exists [t]. split; [exact Ht|]. discriminate.
Qed.

Section Frame.
Variable idx : Indexing.

Lemma dispatch_extends c s s' :
  dispatch idx c s = Ok s' -> extends s s'.
Proof.
  unfold dispatch. intros H.
  destruct (isAlpha c).
  { destruct (getNextWord idx _ _) as [[w p]|]; [|discriminate].
    bind_step in H. injection H as <-.
    destruct (is_keyword w); eapply extends_token; reflexivity. }
  destruct (orb false (Ascii.eqb c underscore)).
  { destruct (underscore_loop idx _ _ _ _) as [[p w]|]; [|discriminate].
    bind_step in H. injection H as <-. eapply extends_token; reflexivity. }
  destruct (isDigit c).
  { destruct (getNextNumber idx _ _) as [[w p]|]; [|discriminate].
    bind_step in H. injection H as <-. eapply extends_token; reflexivity. }
  destruct (andM _ (lookahead idx _ _ "<")) as [shl|]; [|discriminate].
  bind_step in H. destruct shl.
  { injection H as <-. eapply extends_token; reflexivity. }
  destruct (andM (Ascii.eqb c ">") _) as [shr|]; [|discriminate].
  bind_step in H. destruct shr.
  { injection H as <-. eapply extends_token; reflexivity. }
  destruct (is_operator_char c).
  { injection H as <-. eapply extends_token; reflexivity. }
  destruct (is_separator_char c).
  { injection H as <-. eapply extends_token; reflexivity. }
  destruct (Ascii.eqb c dquote).
  2:{ injection H as <-. eapply extends_token; reflexivity. }
  destruct (string_loop idx _ _ _ _ _) as [[p lit]|]; [|discriminate].
  bind_step in H. injection H as <-.
  destruct (String.eqb_spec lit EmptyString) as [-> | Hne].
  - split; [reflexivity|]. exists []. split; [symmetry; apply app_nil_r|].
    intros _. exists (String dquote (string1 dquote)). split; [|reflexivity].
    repeat constructor.
  - eapply extends_token; reflexivity.
Qed.

Lemma directive_extends c s s' :
  directive idx c s = Ok s' -> extends s s'.
Proof.
  unfold directive. intros H. destruct (Ascii.eqb c "#").
  - destruct (getNextWord idx _ _) as [[w p]|]; [|discriminate].
    bind_step in H. injection H as <-. eapply extends_token; reflexivity.
  - injection H as <-. apply extends_refl.
Qed.

Lemma comment_end_extends c s s' :
  comment_end idx c s = Ok s' -> extends s s'.
Proof.
  unfold comment_end. intros H.
  destruct (andM _ _) as [b|]; [|discriminate].
  bind_step in H. destruct b; injection H as <-;
    apply extends_same; reflexivity.
Qed.

Lemma classify_extends c s s' :
  classify idx c s = Ok s' -> extends s s'.
Proof.
  unfold classify. intros H. destruct (negb _).
  - destruct (dispatch idx c s) as [s1|] eqn:Hd; [|discriminate].
    bind_step in H. injection H as <-.
    apply extends_trans with s1; [exact (dispatch_extends _ _ _ Hd)|].
    apply extends_same; reflexivity.
  - injection H as <-. apply extends_refl.
Qed.

Lemma finish_extends c s s' :
  finish idx c s = Ok s' -> extends s s'.
Proof.
  unfold finish. intros H.
  destruct (comment_end idx c s) as [s1|] eqn:He; [|discriminate].
  bind_step in H.
  apply extends_trans with s1;
    eauto using comment_end_extends, classify_extends.
Qed.

Lemma step_extends s s' :
  step idx s = Ok (Some s') -> extends s s'.
Proof.
  unfold step. intros H.
  destruct (position s <? size (input s)); [|discriminate].
  destruct (idx (input s) (position s)) as [c|]; [|discriminate].
  bind_step in H. destruct (isWhitespace c).
  { injection H as <-. apply extends_same; reflexivity. }
  destruct (directive idx c s) as [s1|] eqn:Hd; [|discriminate].
  bind_step in H. apply directive_extends in Hd.
  apply extends_trans with s1; [exact Hd|]. clear Hd.
  destruct (andM _ (lookahead idx _ _ "*")) as [b1|]; [|discriminate].
  bind_step in H. destruct b1.
  { destruct (finish idx c _) as [s2|] eqn:Hf; [|discriminate].
    bind_step in H. injection H as <-. apply finish_extends in Hf.
    eapply extends_trans; [|exact Hf]. apply extends_same; reflexivity. }
  destruct (andM _ _) as [b2|]; [|discriminate].
  bind_step in H. destruct b2.
  { destruct (line_loop idx _ _ _) as [p|]; [|discriminate].
    bind_step in H. injection H as <-. apply extends_same; reflexivity. }
  destruct (finish idx c s1) as [s2|] eqn:Hf; [|discriminate].
  bind_step in H. injection H as <-. exact (finish_extends _ _ _ Hf).
Qed.

Lemma run_extends fuel s r :
  run idx fuel s = Returned r -> extends s r.
Proof.
  revert s. induction fuel as [|fuel IH]; intros s.
  - simpl. destruct (step idx s) as [[s'|]|f]; try discriminate.
    intros [= <-]. apply extends_refl.
  - rewrite run_unfold. destruct (step idx s) as [[s'|]|f] eqn:Hs;
      try discriminate.
    + intros Hr. apply extends_trans with s'; eauto using step_extends.
    + intros [= <-]. apply extends_refl.
Qed.

End Frame.

(** ** Positions inside a concatenation *)

Lemma size_app a b : size (a +:+ b) = size a + size b.
Proof.
  unfold size. induction a as [|c a IH]; unfold String.app in *; simpl.
  - lia.
  - lia.
Qed.

Lemma size_String c r : size (String c r) = size r + 1.
Proof. unfold size. simpl. lia. Qed.

Lemma get_app_r a b k :
  String.get (String.length a + k) (a +:+ b) = String.get k b.
Proof.
  induction a as [|c a IH]; unfold String.app in *; simpl; [reflexivity|].
  exact IH.
Qed.

Lemma char_at_app_r a b k : char_at (a +:+ b) (size a + k) = char_at b k.
Proof.
  unfold char_at, size.
  replace (N.to_nat (N.of_nat (String.length a) + k))
    with (String.length a + N.to_nat k)%nat by lia.
  rewrite get_app_r. reflexivity.
Qed.

Lemma char_at_head c r : char_at (String c r) 0 = c.
Proof. reflexivity. Qed.

Lemma char_at_tail c r k : char_at (String c r) (k + 1) = char_at r k.
Proof.
  unfold char_at. replace (N.to_nat (k + 1)) with (S (N.to_nat k)) by lia.
  reflexivity.
Qed.

Lemma char_at_quotes q p :
  only_quotes q -> p < size q -> char_at q p = dquote.
Proof.
  unfold only_quotes, chars. revert p.
  induction q as [|c q IH]; intros p Hq Hp.
  - unfold size in Hp. simpl in Hp. lia.
  - simpl in Hq. apply Forall_cons in Hq as [<- Hq].
    destruct (N.eq_dec p 0) as [-> | Hne]; [reflexivity|].
    replace p with (p - 1 + 1) by lia. rewrite char_at_tail.
    apply IH; [exact Hq|]. rewrite size_String in Hp. lia.
Qed.

(** ** Unfolding the loops *)

Section Equations.
Variable idx : Indexing.

Lemma string_loop_eq fuel inp pos lit esc :
  string_loop idx fuel inp pos lit esc =
  if pos <? size inp then
    c ← idx inp pos;
    if Ascii.eqb c dquote && negb esc then Ok (SizeT.incr pos, lit)
    else
      match fuel with
      | O => Err Exhausted
      | S fuel =>
          if Ascii.eqb c backslash then
            string_loop idx fuel inp (SizeT.incr pos) lit true
          else
            string_loop idx fuel inp (SizeT.incr pos) (lit +:+ string1 c) false
      end
  else Ok (pos, lit).
Proof. destruct fuel; reflexivity. Qed.

Lemma word_loop_eq fuel inp pos :
  word_loop idx fuel inp pos =
  if pos <? size inp then
    c ← idx inp pos;
    if isAlphaNumeric c && negb (Ascii.eqb c underscore) then
      match fuel with
      | O => Err Exhausted
      | S fuel => word_loop idx fuel inp (SizeT.incr pos)
      end
    else Ok pos
  else Ok pos.
Proof. destruct fuel; reflexivity. Qed.
End Equations.

(** ** An iteration that starts on an ordinary character *)

Lemma step_plain s c :
  position s < size (input s) ->
  char_at (input s) (position s) = c ->
  isWhitespace c = false ->
  Ascii.eqb c "#" = false ->
  Ascii.eqb c "/" = false ->
  inMultiLineComment s = false ->
  step subscript s =
  (s' ← dispatch subscript c s;
   Ok (Some (with_position s' (SizeT.incr (position s'))))).
Proof.
  intros Hlt Hc Hws Hhash Hslash Hcom. unfold step.
  destruct (N.ltb_spec (position s) (size (input s))); [|lia].
  rewrite (subscript_inside _ _ Hlt). bind_step. rewrite Hc, Hws.
  unfold directive. rewrite Hhash. bind_step. rewrite Hslash. simpl andM.
  bind_step. unfold finish, comment_end. rewrite Hcom. simpl andM. bind_step.
  unfold classify. rewrite Hcom. simpl negb.
  destruct (dispatch subscript c s); reflexivity.
Qed.

Lemma dispatch_dquote idx s :
  dispatch idx dquote s =
  ('(pos, literalString) ←
     string_loop idx (String.length (input s)) (input s)
                 (SizeT.incr (position s)) EmptyString false;
   let s := with_position s pos in
   let s := if String.eqb literalString EmptyString then s
            else emplace_back s LITERAL literalString in
   Ok (append_cleaned s (quoted literalString))).
Proof. reflexivity. Qed.

Lemma step_string_literal s pos lit :
  position s < size (input s) ->
  char_at (input s) (position s) = dquote ->
  inMultiLineComment s = false ->
  string_loop subscript (String.length (input s)) (input s)
              (SizeT.incr (position s)) EmptyString false = Ok (pos, lit) ->
  step subscript s = Ok (Some (after_literal s pos lit)).
Proof.
  intros Hlt Hc Hcom Hloop.
  rewrite (step_plain s dquote Hlt Hc) by (reflexivity || exact Hcom).
  rewrite dispatch_dquote, Hloop. bind_step. unfold after_literal.
  destruct (String.eqb lit EmptyString);
    unfold with_position, append_cleaned, emplace_back; simpl;
    rewrite Hcom; reflexivity.
Qed.

(** ** The string-literal loop *)

Lemma chars_snoc lit c : chars (lit +:+ string1 c) = chars lit ++ [c].
Proof. rewrite chars_app. reflexivity. Qed.

(** No backslash ever enters the collected text. *)
Lemma string_loop_no_backslash idx fuel inp :
  forall pos lit esc pos' lit',
  string_loop idx fuel inp pos lit esc = Ok (pos', lit') ->
  backslash ∉ chars lit -> backslash ∉ chars lit'.
Proof.
  induction fuel as [|fuel IH]; intros pos lit esc pos' lit' H Hlit;
    rewrite string_loop_eq in H;
    destruct (pos <? size inp); try (injection H as <- <-; exact Hlit);
    destruct (idx inp pos) as [c|]; try discriminate; bind_step in H;
    destruct (Ascii.eqb c dquote && negb esc);
    try (injection H as <- <-; exact Hlit); try discriminate.
  destruct (Ascii.eqb c backslash) eqn:Hb.
  - exact (IH _ _ _ _ _ H Hlit).
  - apply (IH _ _ _ _ _ H). rewrite chars_snoc.
    apply Ascii.eqb_neq in Hb.
    intros [Hin | Hin%list_elem_of_singleton]%elem_of_app; [tauto | congruence].
Qed.

(** A closing quote right at the start of the loop ends it at once. *)
Lemma string_loop_closing fuel inp pos lit :
  pos < size inp -> char_at inp pos = dquote ->
  string_loop subscript fuel inp pos lit false = Ok (SizeT.incr pos, lit).
Proof.
  intros Hlt Hc. rewrite string_loop_eq.
  destruct (N.ltb_spec pos (size inp)); [|lia].
  rewrite (subscript_inside _ _ Hlt), Hc. reflexivity.
Qed.

(** Without any quote left in the input, the loop runs to the end of the
    buffer and collects everything but the backslashes. *)
Lemma string_loop_unterminated body :
  forall pre lit esc fuel,
  dquote ∉ chars body ->
  fits (pre +:+ body) ->
  (String.length body <= fuel)%nat ->
  string_loop subscript fuel (pre +:+ body) (size pre) lit esc =
  Ok (size (pre +:+ body), lit +:+ drop_backslashes body).
Proof.
  induction body as [|c body IH]; intros pre lit esc fuel Hq Hfits Hfuel.
  - rewrite string_loop_eq, !append_nil_r.
    destruct (N.ltb_spec (size pre) (size pre)); [lia | reflexivity].
  - assert (Hlt : size pre < size (pre +:+ String c body)).
    { rewrite size_app, size_String. lia. }
    assert (Hc : char_at (pre +:+ String c body) (size pre) = c).
    { transitivity (char_at (String c body) 0); [|reflexivity].
      rewrite <- (char_at_app_r pre (String c body) 0), N.add_0_r.
      reflexivity. }
    assert (Hne : Ascii.eqb c dquote = false).
    { apply Ascii.eqb_neq. intros ->. apply Hq. apply list_elem_of_here. }
    assert (Hq' : dquote ∉ chars body).
    { intros Hin. apply Hq. apply list_elem_of_further. exact Hin. }
    assert (Hsplit : pre +:+ String c body = (pre +:+ string1 c) +:+ body).
    { rewrite append_assoc. reflexivity. }
    rewrite string_loop_eq.
    destruct (N.ltb_spec (size pre) (size (pre +:+ String c body))); [|lia].
    rewrite (subscript_inside _ _ Hlt), Hc. bind_step. rewrite Hne.
    simpl andb. destruct fuel as [|fuel]; [simpl in Hfuel; lia|].
    rewrite (incr_below _ _ Hlt Hfits).
    replace (size pre + 1) with (size (pre +:+ string1 c))
      by (rewrite size_app; reflexivity).
    simpl in Hfuel. simpl drop_backslashes.
    destruct (Ascii.eqb c backslash).
    + rewrite Hsplit. apply IH; [exact Hq' | rewrite <- Hsplit; exact Hfits | lia].
    + rewrite Hsplit, IH; [|exact Hq' | rewrite <- Hsplit; exact Hfits | lia].
      rewrite (append_assoc lit). reflexivity.
Qed.

Lemma incr_upto p : p <= max_size -> SizeT.incr p = p + 1.
Proof.
  intros Hp. unfold SizeT.incr, SizeT.add, SizeT.wrap.
  rewrite max_size_eq in Hp. apply N.mod_small. rewrite modulus_eq. lia.
Qed.

(** ** The loop condition *)

Lemma step_done idx s :
  size (input s) <= position s -> step idx s = Ok None.
Proof.
  intros H. unfold step.
  destruct (N.ltb_spec (position s) (size (input s))); [lia | reflexivity].
Qed.

(** ** Scanning a text made of double quotes only *)

Section Quotes.
Variable q : string.
Hypothesis Hq : only_quotes q.
Hypothesis Hfits : fits q.

Lemma quotes_literal pos :
  pos < size q ->
  exists p, string_loop subscript (String.length q) q (SizeT.incr pos)
                        EmptyString false = Ok (p, EmptyString)
            /\ pos + 1 <= p <= size q.
Proof.
  intros Hlt. rewrite (incr_below _ _ Hlt Hfits).
  destruct (N.lt_ge_cases (pos + 1) (size q)) as [Hin | Hout].
  - exists (pos + 2). split; [|lia].
    rewrite string_loop_closing by (auto using char_at_quotes).
    rewrite (incr_below _ _ Hin Hfits). do 2 f_equal. lia.
  - exists (pos + 1). split; [|lia].
    rewrite string_loop_eq.
    destruct (N.ltb_spec (pos + 1) (size q)); [lia | reflexivity].
Qed.

Lemma quotes_step s :
  input s = q -> position s < size q -> inMultiLineComment s = false ->
  exists s', step subscript s = Ok (Some s')
             /\ input s' = q /\ tokens s' = tokens s
             /\ inMultiLineComment s' = false
             /\ position s + 2 <= position s'.
Proof.
  intros Hin Hlt Hcom.
  destruct (quotes_literal (position s) Hlt) as (p & Hloop & Hp).
  exists (after_literal s p EmptyString).
  split; [|repeat split].
  - apply step_string_literal; rewrite ?Hin; auto using char_at_quotes.
  - exact Hin.
  - simpl. rewrite incr_upto; [lia|]. unfold fits in Hfits. lia.
Qed.

Lemma quotes_run fuel :
  forall s,
  input s = q -> inMultiLineComment s = false ->
  size q <= position s + N.of_nat fuel ->
  exists r, run subscript fuel s = Returned r /\ tokens r = tokens s.
Proof.
  induction fuel as [|fuel IH]; intros s Hin Hcom Hfuel.
  - exists s. split; [|reflexivity]. simpl.
    rewrite step_done; [reflexivity | rewrite Hin; lia].
  - rewrite run_unfold.
    destruct (N.lt_ge_cases (position s) (size q)) as [Hlt | Hge].
    + destruct (quotes_step s Hin Hlt Hcom) as (s' & -> & Hin' & Ht & Hcom' & Hp).
      destruct (IH s' Hin' Hcom') as (r & Hr & Htr); [lia|].
      exists r. split; [exact Hr | congruence].
    + exists s. split; [|reflexivity].
      rewrite step_done; [reflexivity | rewrite Hin; lia].
Qed.

End Quotes.

(** ** The keyword table *)

Lemma is_keyword_table word :
  is_keyword word = true <-> word ∈ keyword_table.
Proof.
  unfold is_keyword, initKeywords, keyword_table.
  rewrite bool_decide_eq_true, <- elem_of_dom.
  rewrite !dom_insert_L, dom_empty_L.
  rewrite !elem_of_union, !elem_of_singleton, elem_of_empty.
  rewrite !elem_of_cons, elem_of_nil. tauto.
Qed.

(** ** Character classes *)

Lemma isAlpha_plain c :
  isAlpha c = true ->
  isWhitespace c = false /\ Ascii.eqb c "#" = false /\ Ascii.eqb c "/" = false.
Proof.
  intros H.
  destruct c as [[] [] [] [] [] [] [] []]; vm_compute in H; try discriminate H;
    repeat split.
Qed.

(** ** More on the main loop *)

Lemma run_zero idx s :
  run idx 0 s =
  match step idx s with
  | Err f => Faulted f
  | Ok None => Returned s
  | Ok (Some s') => Running s'
  end.
Proof. reflexivity. Qed.

Lemma run_done idx s fuel : step idx s = Ok None -> run idx fuel s = Returned s.
Proof. intros H. destruct fuel; simpl; rewrite H; reflexivity. Qed.

Lemma returned_more idx fuel s x :
  returned (run idx fuel s) = Some x ->
  forall fuel', (fuel <= fuel')%nat -> returned (run idx fuel' s) = Some x.
Proof.
  intros H fuel' Hle. destruct (run idx fuel s) as [r| |] eqn:Hr; try discriminate.
  rewrite (run_more idx fuel s r Hr fuel' Hle). exact H.
Qed.

Lemma string_loop_runs_out body :
  forall pre lit esc fuel text,
  unterminated_literal body esc = Some text ->
  fits (pre +:+ body) ->
  (String.length body <= fuel)%nat ->
  string_loop subscript fuel (pre +:+ body) (size pre) lit esc =
  Ok (size (pre +:+ body), lit +:+ text).
Proof.
  induction body as [|c body IH]; intros pre lit esc fuel text Hscan Hfits Hfuel.
  - injection Hscan as <-. rewrite string_loop_eq, !append_nil_r.
    destruct (N.ltb_spec (size pre) (size pre)); [lia | reflexivity].
  - assert (Hlt : size pre < size (pre +:+ String c body)).
    { rewrite size_app, size_String. lia. }
    assert (Hc : char_at (pre +:+ String c body) (size pre) = c).
    { transitivity (char_at (String c body) 0); [|reflexivity].
      rewrite <- (char_at_app_r pre (String c body) 0), N.add_0_r.
      reflexivity. }
    assert (Hsplit : pre +:+ String c body = (pre +:+ string1 c) +:+ body).
    { rewrite append_assoc. reflexivity. }
    rewrite string_loop_eq.
    destruct (N.ltb_spec (size pre) (size (pre +:+ String c body))); [|lia].
    rewrite (subscript_inside _ _ Hlt), Hc. bind_step.
    simpl in Hscan, Hfuel.
    destruct (Ascii.eqb c dquote && negb esc); [discriminate|].
    destruct fuel as [|fuel]; [lia|].
    rewrite (incr_below _ _ Hlt Hfits).
    replace (size pre + 1) with (size (pre +:+ string1 c))
      by (rewrite size_app; reflexivity).
    destruct (Ascii.eqb c backslash).
    + rewrite Hsplit. apply IH; [exact Hscan | rewrite <- Hsplit; exact Hfits | lia].
    + destruct (unterminated_literal body false) as [t|] eqn:Ht; [|discriminate].
      injection Hscan as <-.
      rewrite Hsplit, (IH _ _ _ _ t Ht); [|rewrite <- Hsplit; exact Hfits | lia].
      rewrite (append_assoc lit). reflexivity.
Qed.


(** ** Inside a multi-line comment *)

(** Between the comment markers only white space moves the cursor: on any
    other character that is not [#], [/] or [*] the iteration changes
    nothing at all. *)
Lemma comment_body_stuck s c :
  position s < size (input s) ->
  char_at (input s) (position s) = c ->
  isWhitespace c = false ->
  Ascii.eqb c "#" = false ->
  Ascii.eqb c "/" = false ->
  Ascii.eqb c "*" = false ->
  inMultiLineComment s = true ->
  step subscript s = Ok (Some s).
Proof.
  intros Hlt Hc Hws Hhash Hslash Hstar Hcom. unfold step.
  destruct (N.ltb_spec (position s) (size (input s))); [|lia].
  rewrite (subscript_inside _ _ Hlt). bind_step. rewrite Hc, Hws.
  unfold directive. rewrite Hhash. bind_step. rewrite Hslash. simpl andM.
  bind_step. unfold finish, comment_end. rewrite Hcom, Hstar. simpl andM.
  bind_step. unfold classify. rewrite Hcom. reflexivity.
Qed.

(** ** No fault along a scan *)

Lemma run_no_fault fuel :
  forall s f, fits (input s) -> run subscript fuel s <> Faulted f.
Proof.
  induction fuel as [|fuel IH]; intros s f Hfits.
  - simpl. destruct (step_ok s Hfits) as [[s'|] ->]; discriminate.
  - rewrite run_unfold. destruct (step_ok s Hfits) as [[s'|] Hs]; rewrite Hs.
    + apply IH. apply step_extends in Hs as [-> _]. exact Hfits.
    + discriminate.
Qed.

(** ** The opening quote of a literal inside the input *)

Section OpeningQuote.
Variables (s : State) (pre body : string).
Hypothesis Hinput : input s = pre +:+ String dquote body.
Hypothesis Hpos : position s = size pre.
Hypothesis Hfits : fits (input s).

Lemma opening_quote_inside : position s < size (input s).
Proof. rewrite Hinput, Hpos, size_app, size_String. lia. Qed.

Lemma opening_quote_char : char_at (input s) (position s) = dquote.
Proof.
  rewrite Hinput, Hpos.
  transitivity (char_at (String dquote body) 0); [|reflexivity].
  rewrite <- (char_at_app_r pre (String dquote body) 0), N.add_0_r.
  reflexivity.
Qed.

(** The literal loop starts on the first character of [body]. *)
Lemma opening_quote_body :
  input s = (pre +:+ string1 dquote) +:+ body
  /\ SizeT.incr (position s) = size (pre +:+ string1 dquote).
Proof.
  split.
  - rewrite Hinput, append_assoc. reflexivity.
  - rewrite (incr_below _ _ opening_quote_inside Hfits), Hpos, size_app.
    reflexivity.
Qed.
End OpeningQuote.

(** * The claims of the specification *)

(** ** Termination and bounds *)

(** C1.  The specification states that [tokenize] terminates on every input.
    The source does not: inside a multi-line comment nothing advances the
    cursor over an ordinary character.  On the five characters of a comment
    holding the letter a, the first iteration consumes the opening marker and
    every later iteration leaves the state as it is, so that whatever the
    number of iterations the loop is still running, at index 2, with no
    token. *)
Theorem tokenize_stuck_in_comment : forall fuel,
  tokenize subscript fuel "/*a*/" =
  Running (mkState "/*a*/" 2 EmptyString [] true).
Proof.
  intros fuel. unfold tokenize.
  assert (Hfirst : step subscript (init "/*a*/") =
                   Ok (Some (mkState "/*a*/" 2 EmptyString [] true)))
    by (vm_compute; reflexivity).
  destruct fuel as [|fuel].
  - rewrite run_zero, Hfirst. reflexivity.
  - rewrite run_unfold, Hfirst. apply run_stuck. vm_compute. reflexivity.
Qed.

(** C2, as the specification states it, fails when indexing is an option:
    the lookahead on the last character reads index [size()].  Here the
    input is a single slash and the index read is 1. *)
Lemma lookahead_at_last_character_reads_size :
  tokenize checked 0 "/" = Faulted (OutOfBounds 1).
Proof. vm_compute. reflexivity. Qed.

(** C2, amended.  Every character read during [tokenize], lookahead
    included, is at an index that is at most the length of the input: under
    the semantics of [operator[]], where index [size()] holds the terminating
    null character and only the indices beyond it are outside the buffer, no
    scan ever faults (nor does [substr] throw, nor does a helper loop run
    away). *)
Theorem tokenize_reads_up_to_terminator source fuel f :
  fits source -> tokenize subscript fuel source <> Faulted f.
Proof. intros Hfits. apply run_no_fault. exact Hfits. Qed.

Lemma tokenize_reads_up_to_terminator_witness :
  fits "/" /\ tokenize subscript 1 "/" <> Faulted (OutOfBounds 1).
Proof.
  split.
  - vm_compute. discriminate.
  - apply (tokenize_reads_up_to_terminator "/" 1 (OutOfBounds 1)).
    vm_compute. discriminate.
Defined.

(** ** Cursor arithmetic after a sub-scan *)

(** C3.  The specification expects the shift operator followed by the
    assignment operator.  The source returns the shift operator alone: the
    branch moves the cursor by two and the loop then moves it once more, over
    the [=], which is never classified.  (The operator is not split in two
    [<] either.) *)
Theorem tokenize_shift_assign : forall fuel,
  returned (tokenize subscript (S fuel) "<<=") =
  Some ([mkToken OPERATOR "<<"], "<<"%string).
Proof.
  intros fuel. apply (returned_more subscript 1); [|lia].
  vm_compute. reflexivity.
Qed.

(** C4.  The specification expects the cursor one past the lexeme after each
    sub-scan.  Only [getNextWord] steps back to make room for the advance at
    the end of the loop body; after a number, a shift operator and a string
    literal the cursor ends two past the lexeme (one past its closing quote
    for a literal), and the character in between is skipped: the separator
    after the number 12 never becomes a token. *)
Theorem sub_scan_cursor_overshoots :
  step subscript (init "12;") =
    Ok (Some (mkState "12;" 3 "12" [mkToken LITERAL "12"] false))
  /\ step subscript (init "<<=") =
    Ok (Some (mkState "<<=" 3 "<<" [mkToken OPERATOR "<<"] false))
  /\ step subscript (init (quoted "a" +:+ ";")) =
    Ok (Some (mkState (quoted "a" +:+ ";") 4 (quoted "a")
                      [mkToken LITERAL "a"] false))
  /\ (forall fuel, returned (tokenize subscript (S fuel) "12;") =
                   Some ([mkToken LITERAL "12"], "12"%string)).
Proof.
  repeat split; try (vm_compute; reflexivity).
  intros fuel. apply (returned_more subscript 1); [|lia].
  vm_compute. reflexivity.
Qed.

(** C6.  The two first literals are as the specification says.  On the third
    input the second decimal point is indeed left by [getNextNumber], but the
    advance at the end of the loop body steps over it: it is never
    reprocessed, and the scan continues with the digits that follow. *)
Theorem tokenize_number_literals : forall fuel,
  returned (tokenize subscript (2 + fuel) "123") =
    Some ([mkToken LITERAL "123"], "123"%string)
  /\ returned (tokenize subscript (2 + fuel) "3.14") =
    Some ([mkToken LITERAL "3.14"], "3.14"%string)
  /\ returned (tokenize subscript (2 + fuel) "3.14.15") =
    Some ([mkToken LITERAL "3.14"; mkToken LITERAL "15"], "3.1415"%string).
Proof.
  intros fuel.
  repeat split; apply (returned_more subscript 2); try lia;
    vm_compute; reflexivity.
Qed.

(** ** Keywords and identifiers *)

(** The lookup in the keyword table is right for whatever [getNextWord]
    returned: on an alphabetic character (outside a comment) the iteration
    emits one token, KEYWORD exactly when its lexeme is one of the entries of
    the keyword table, and IDENTIFIER exactly when it is not.  Whether the
    lexeme is the word of the input is another matter. *)
Lemma keyword_identifier_partition s :
  fits (input s) ->
  position s < size (input s) ->
  isAlpha (char_at (input s) (position s)) = true ->
  inMultiLineComment s = false ->
  exists s' tok,
    step subscript s = Ok (Some s')
    /\ tokens s' = tokens s ++ [tok]
    /\ cleanedInput s' = cleanedInput s +:+ value tok
    /\ (type tok = KEYWORD <-> value tok ∈ keyword_table)
    /\ (type tok = IDENTIFIER <-> value tok ∉ keyword_table).
Proof.
  intros Hfits Hlt Halpha Hcom.
  destruct (isAlpha_plain _ Halpha) as (Hws & Hhash & Hslash).
  rewrite (step_plain s _ Hlt eq_refl Hws Hhash Hslash Hcom).
  unfold dispatch. rewrite Halpha.
  destruct (getNextWord_ok _ Hfits (position s)) as [[word pos] ->]; [lia|].
  bind_step.
  pose proof (is_keyword_table word) as Htable.
  destruct (is_keyword word).
  - exists (with_position
              (append_cleaned (emplace_back (with_position s pos) KEYWORD word) word)
              (SizeT.incr pos)), (mkToken KEYWORD word).
    repeat split; simpl; try tauto; try discriminate.
  - exists (with_position
              (append_cleaned (emplace_back (with_position s pos) IDENTIFIER word) word)
              (SizeT.incr pos)), (mkToken IDENTIFIER word).
    repeat split; simpl; try discriminate.
    + intros Hin. apply Htable in Hin. discriminate.
    + intros _ Hin. apply Htable in Hin. discriminate.
Qed.

Lemma keyword_identifier_partition_witness :
  exists s' tok,
    step subscript (init "int x") = Ok (Some s')
    /\ tokens s' = tokens (init "int x") ++ [tok]
    /\ cleanedInput s' = cleanedInput (init "int x") +:+ value tok
    /\ (type tok = KEYWORD <-> value tok ∈ keyword_table)
    /\ (type tok = IDENTIFIER <-> value tok ∉ keyword_table).
Proof.
  apply (keyword_identifier_partition (init "int x")).
  - vm_compute. discriminate.
  - vm_compute. reflexivity.
  - vm_compute. reflexivity.
  - reflexivity.
Defined.

(** C5.  The partition of words into keywords and identifiers fails for a
    word that ends the input: [int] is an entry of the keyword table, yet the
    scan of the three characters [int] returns one IDENTIFIER token with an
    empty lexeme and an empty cleaned text, because [getNextWord] returns the
    empty string when its loop reaches the end of the input.  With one more
    character after it the same word is the KEYWORD [int]. *)
Theorem keyword_at_end_of_input :
  "int"%string ∈ keyword_table
  /\ (forall fuel,
        returned (tokenize subscript (S fuel) "int") =
        Some ([mkToken IDENTIFIER EmptyString], EmptyString))
  /\ (forall fuel,
        returned (tokenize subscript (S (S fuel)) "int ") =
        Some ([mkToken KEYWORD "int"], "int"%string)).
Proof.
  split; [|split].
  - apply list_elem_of_here.
  - intros fuel. apply (returned_more subscript 1); [|lia].
    vm_compute. reflexivity.
  - intros fuel. apply (returned_more subscript 2); [|lia].
    vm_compute. reflexivity.
Qed.

(** ** Scanning the cleaned text again *)


(** The two scans differ without any white space as well: after a token of
    one character the cursor moves by two ([position++] in the branch, then
    the [position++] that ends every iteration), so the character after it
    is never scanned.  In [a;b;] that character is [b]; in the cleaned text
    [a;;] it is the second [;]. *)
Example rescan_after_overshoot :
  returned (tokenize subscript 4 "a;b;") =
    Some ([mkToken IDENTIFIER "a"; mkToken SEPARATOR ";"; mkToken SEPARATOR ";"],
          "a;;"%string)
  /\ returned (tokenize subscript 4 "a;;") =
    Some ([mkToken IDENTIFIER "a"; mkToken SEPARATOR ";"], "a;"%string).
Proof. split; vm_compute; reflexivity. Qed.

(** A scan that returns without any token: scanning its cleaned text again
    returns as well, without any token.  The inputs made of a word and a
    last lexeme are treated at the end of the development. *)
Lemma rescan_of_tokenless_scan source fuel r :
  tokenize subscript fuel source = Returned r ->
  tokens r = [] ->
  fits (cleanedInput r) ->
  exists r',
    tokenize subscript (String.length (cleanedInput r)) (cleanedInput r)
    = Returned r'
    /\ categories (tokens r') = categories (tokens r).
Proof.
  intros Hrun Hnone Hfits.
  apply run_extends in Hrun as [_ (new & Hnew & Hquotes)].
  rewrite Hnone in Hnew. simpl in Hnew. subst new.
  destruct (Hquotes eq_refl) as (qs & Hqs & Hclean). simpl in Hclean.
  change (EmptyString +:+ qs) with qs in Hclean.
  rewrite Hclean in *.
  destruct (quotes_run qs Hqs Hfits (String.length qs) (init qs)) as (r' & Hr' & Ht);
    [reflexivity | reflexivity | simpl; unfold size; lia |].
  exists r'. split; [exact Hr'|]. rewrite Ht, Hnone. reflexivity.
Qed.

Lemma rescan_of_tokenless_scan_witness :
  exists r',
    tokenize subscript
      (String.length (cleanedInput (mkState (quoted EmptyString) 3
                                            (quoted EmptyString) [] false)))
      (cleanedInput (mkState (quoted EmptyString) 3 (quoted EmptyString) [] false))
    = Returned r'
    /\ categories (tokens r') =
       categories (tokens (mkState (quoted EmptyString) 3
                                   (quoted EmptyString) [] false)).
Proof.
  apply (rescan_of_tokenless_scan (quoted EmptyString) 1).
  - vm_compute. reflexivity.
  - reflexivity.
  - vm_compute. discriminate.
Defined.

(** ** String literals *)

(** C8, as the specification states it, fails when nothing was collected: a
    lone double quote is an unterminated literal, and no token is emitted
    for it. *)
Lemma lone_quote_emits_no_token :
  returned (tokenize subscript 1 (string1 dquote)) =
  Some ([], quoted EmptyString).
Proof. vm_compute. reflexivity. Qed.

(** C8, amended.  When the input ends before the closing quote of a literal
    is found and the text collected so far is not empty, the scan does not
    fail: the iteration emits the single token LITERAL with that text,
    appends it, quoted, to the cleaned text, and [tokenize] returns. *)
Theorem unterminated_literal_recovered s pre body text :
  input s = pre +:+ String dquote body ->
  position s = size pre ->
  inMultiLineComment s = false ->
  fits (input s) ->
  unterminated_literal body false = Some text ->
  text <> EmptyString ->
  forall fuel,
    run subscript (S fuel) s =
    Returned (mkState (input s) (size (input s) + 1)
                      (cleanedInput s +:+ quoted text)
                      (tokens s ++ [mkToken LITERAL text]) false).
Proof.
  intros Hinput Hpos Hcom Hfits Hscan Hne fuel.
  pose proof (opening_quote_inside s pre body Hinput Hpos) as Hlt.
  pose proof (opening_quote_char s pre body Hinput Hpos) as Hc.
  destruct (opening_quote_body s pre body Hinput Hpos Hfits) as [Hsplit Hincr].
  assert (Hloop : string_loop subscript (String.length (input s)) (input s)
                    (SizeT.incr (position s)) EmptyString false
                  = Ok (size (input s), text)).
  { rewrite Hincr, Hsplit.
    apply (string_loop_runs_out body _ EmptyString false _ text Hscan).
    - rewrite <- Hsplit. exact Hfits.
    - rewrite <- Hsplit, Hinput.
      assert (size body <= size (pre +:+ String dquote body))
        by (rewrite size_app, size_String; lia).
      unfold size in *. lia. }
  rewrite run_unfold, (step_string_literal s _ _ Hlt Hc Hcom Hloop).
  unfold after_literal.
  apply String.eqb_neq in Hne. rewrite Hne.
  rewrite (incr_upto (size (input s))) by exact Hfits.
  apply run_done, step_done. simpl. lia.
Qed.

Lemma unterminated_literal_recovered_witness :
  run subscript 2 (init (String dquote "abc")) =
  Returned (mkState (input (init (String dquote "abc")))
                    (size (input (init (String dquote "abc"))) + 1)
                    (cleanedInput (init (String dquote "abc")) +:+ quoted "abc")
                    (tokens (init (String dquote "abc"))
                     ++ [mkToken LITERAL "abc"]) false).
Proof.
  refine (unterminated_literal_recovered (init (String dquote "abc"))
            EmptyString "abc" "abc" _ _ _ _ _ _ 1%nat).
  - reflexivity.
  - reflexivity.
  - reflexivity.
  - vm_compute. discriminate.
  - reflexivity.
  - discriminate.
Defined.

(** C9.  On two adjacent double quotes (outside a comment) the iteration
    leaves the token vector unchanged and appends the empty quoted pair to
    the cleaned text. *)
Theorem empty_literal_frame s pre rest :
  input s = pre +:+ String dquote (String dquote rest) ->
  position s = size pre ->
  inMultiLineComment s = false ->
  fits (input s) ->
  exists s',
    step subscript s = Ok (Some s')
    /\ tokens s' = tokens s
    /\ cleanedInput s' = cleanedInput s +:+ quoted EmptyString.
Proof.
  intros Hinput Hpos Hcom Hfits.
  pose proof (opening_quote_inside s pre _ Hinput Hpos) as Hlt.
  pose proof (opening_quote_char s pre _ Hinput Hpos) as Hc.
  destruct (opening_quote_body s pre _ Hinput Hpos Hfits) as [Hsplit Hincr].
  assert (Hloop : string_loop subscript (String.length (input s)) (input s)
                    (SizeT.incr (position s)) EmptyString false
                  = Ok (SizeT.incr (SizeT.incr (position s)), EmptyString)).
  { apply string_loop_closing.
    - rewrite Hincr, Hsplit, !size_app, size_String. lia.
    - rewrite Hincr, Hsplit.
      transitivity (char_at (String dquote rest) 0); [|reflexivity].
      rewrite <- (char_at_app_r (pre +:+ string1 dquote) (String dquote rest) 0),
        N.add_0_r.
      reflexivity. }
  exists (after_literal s (SizeT.incr (SizeT.incr (position s))) EmptyString).
  split; [|split; reflexivity].
  exact (step_string_literal s _ _ Hlt Hc Hcom Hloop).
Qed.

Lemma empty_literal_frame_witness :
  exists s',
    step subscript (init (String dquote (String dquote ";"))) = Ok (Some s')
    /\ tokens s' = tokens (init (String dquote (String dquote ";")))
    /\ cleanedInput s' =
       (cleanedInput (init (String dquote (String dquote ";")))
        +:+ quoted EmptyString).
Proof.
  apply (empty_literal_frame (init (String dquote (String dquote ";")))
           EmptyString ";").
  - reflexivity.
  - reflexivity.
  - reflexivity.
  - vm_compute. discriminate.
Defined.

(** An escaped quote stays in the lexeme, the backslash does not.  The
    iteration on a literal is described in full at the end of the
    development. *)
Example escaped_quote_literal :
  returned (tokenize subscript 1
              (String dquote ("a" +:+ String backslash (quoted "b")))) =
  Some ([mkToken LITERAL ("a" +:+ String dquote "b")],
        quoted ("a" +:+ String dquote "b")).
Proof. vm_compute. reflexivity. Qed.

(** * Further properties of the source *)

Lemma sub_below a b :
  a <= b -> b < SizeT.modulus -> SizeT.sub b a = b - a.
Proof.
  intros Hab Hb. unfold SizeT.sub, SizeT.wrap.
  rewrite (N.mod_small a) by lia.
  replace (b + SizeT.modulus - a) with (b - a + 1 * SizeT.modulus) by lia.
  rewrite N.Div0.mod_add. apply N.mod_small. lia.
Qed.

Lemma decr_positive a :
  0 < a -> a < SizeT.modulus -> SizeT.decr a = a - 1.
Proof.
  intros Ha Hb. unfold SizeT.decr. apply sub_below; [lia | exact Hb].
Qed.

Lemma fits_below_modulus s n : fits s -> n <= size s + 2 -> n < SizeT.modulus.
Proof.
  unfold fits. rewrite max_size_eq, modulus_eq. lia.
Qed.

Lemma substring_prefix w rest :
  String.substring 0 (String.length w) (w +:+ rest) = w.
Proof.
  induction w as [|c w IH]; unfold String.app in *; simpl.
  - destruct rest; reflexivity.
  - f_equal. exact IH.
Qed.

Lemma substring_middle pre w rest :
  String.substring (String.length pre) (String.length w) (pre +:+ w +:+ rest) = w.
Proof.
  induction pre as [|c pre IH]; unfold String.app in *; simpl.
  - apply substring_prefix.
  - exact IH.
Qed.

Lemma isAlphaNumeric_not_underscore c :
  isAlphaNumeric c = true -> Ascii.eqb c underscore = false.
Proof.
  intros H.
  destruct c as [[] [] [] [] [] [] [] []]; vm_compute in H; try discriminate H;
    reflexivity.
Qed.

Lemma char_at_middle pre c rest :
  char_at (pre +:+ String c rest) (size pre) = c.
Proof.
  transitivity (char_at (String c rest) 0); [|reflexivity].
  rewrite <- (char_at_app_r pre (String c rest) 0), N.add_0_r. reflexivity.
Qed.

Lemma size_nil : size EmptyString = 0.
Proof. reflexivity. Qed.

(** The word loop runs over a whole run of letters and digits and stops on
    the character that follows it, or at the end of the input. *)
Lemma word_loop_run w :
  forall pre rest fuel,
  all_chars isAlphaNumeric w ->
  (rest = EmptyString \/
   exists t rest', rest = String t rest' /\ isAlphaNumeric t = false) ->
  fits (pre +:+ w +:+ rest) ->
  (String.length w <= fuel)%nat ->
  word_loop subscript fuel (pre +:+ w +:+ rest) (size pre) =
  Ok (size pre + size w).
Proof.
  induction w as [|c w IH]; intros pre rest fuel Hw Hrest Hfits Hfuel.
  - change (EmptyString +:+ rest) with rest in *.
    rewrite word_loop_eq, size_nil, N.add_0_r.
    destruct Hrest as [-> | (t & rest' & -> & Ht)].
    + rewrite append_nil_r.
      destruct (N.ltb_spec (size pre) (size pre)); [lia | reflexivity].
    + destruct (N.ltb_spec (size pre) (size (pre +:+ String t rest'))) as [Hlt|Hge].
      * rewrite (subscript_inside _ _ Hlt), char_at_middle. bind_step.
        rewrite Ht. reflexivity.
      * reflexivity.
  - apply Forall_cons in Hw as [Hc Hw].
    change (String c w +:+ rest) with (String c (w +:+ rest)) in *.
    assert (Hlt : size pre < size (pre +:+ String c (w +:+ rest))).
    { rewrite size_app, size_String. lia. }
    assert (Hsplit : pre +:+ String c (w +:+ rest)
                     = (pre +:+ string1 c) +:+ w +:+ rest).
    { rewrite append_assoc. reflexivity. }
    rewrite word_loop_eq.
    destruct (N.ltb_spec (size pre) (size (pre +:+ String c (w +:+ rest)))); [|lia].
    rewrite (subscript_inside _ _ Hlt), char_at_middle. bind_step.
    rewrite Hc, (isAlphaNumeric_not_underscore c Hc). simpl andb.
    destruct fuel as [|fuel]; [simpl in Hfuel; lia|].
    rewrite (incr_below _ _ Hlt Hfits).
    replace (size pre + 1) with (size (pre +:+ string1 c))
      by (rewrite size_app; reflexivity).
    rewrite Hsplit, IH; [| exact Hw | exact Hrest | rewrite <- Hsplit; exact Hfits
                         | simpl in Hfuel; lia].
    f_equal. rewrite size_app, size_String. unfold string1. rewrite size_String, size_nil. lia.
Qed.

(** The word that [getNextWord] returns when another character follows it. *)
Lemma getNextWord_word pre w t rest :
  all_chars isAlphaNumeric w ->
  isAlphaNumeric t = false ->
  size pre + size w <> 95 ->
  fits (pre +:+ w +:+ String t rest) ->
  getNextWord subscript (pre +:+ w +:+ String t rest) (size pre) =
  Ok (w, SizeT.decr (size pre + size w)).
Proof.
  intros Hw Ht H95 Hfits. unfold getNextWord.
  set (inp := pre +:+ w +:+ String t rest) in *.
  assert (Hlen : size inp = size pre + size w + size rest + 1).
  { unfold inp. rewrite !size_app, size_String. lia. }
  rewrite (word_loop_run w pre (String t rest) _ Hw); [|eauto | exact Hfits |].
  2:{ assert (size w <= size inp) by lia. unfold size in *. lia. }
  bind_step.
  assert (Hlt : size pre + size w < size inp) by lia.
  destruct (N.ltb_spec (size pre + size w) (size inp)); [|lia].
  rewrite (subscript_inside _ _ Hlt).
  assert (Hc : char_at inp (size pre + size w) = t).
  { unfold inp. rewrite <- append_assoc, <- size_app. apply char_at_middle. }
  rewrite Hc. bind_step. rewrite Ht. simpl negb. cbv iota.
  destruct (N.eqb_spec (size pre + size w) (N_of_ascii underscore)) as [He|_].
  { exfalso. apply H95. rewrite He. reflexivity. }
  simpl andM. bind_step.
  rewrite substr_ok by lia. bind_step.
  rewrite sub_below; [| lia | apply (fits_below_modulus inp); [exact Hfits | lia]].
  replace (size pre + size w - size pre) with (size w) by lia.
  unfold size at 1 2. rewrite !Nat2N.id. unfold inp.
  rewrite substring_middle. reflexivity.
Qed.

(** X5.  [getNextWord] on a run of letters and digits followed by another
    character returns exactly the run and leaves the cursor on its last
    character, one before the terminator (unless the terminator is at index
    95, see [getNextWord_index_95]). *)
Theorem getNextWord_terminated pre w t rest :
  all_chars isAlphaNumeric w ->
  isAlphaNumeric t = false ->
  size pre + size w <> 95 ->
  fits (pre +:+ w +:+ String t rest) ->
  getNextWord subscript (pre +:+ w +:+ String t rest) (size pre) =
  Ok (w, SizeT.decr (size pre + size w)).
Proof. exact (getNextWord_word pre w t rest). Qed.

Lemma getNextWord_terminated_witness :
  getNextWord subscript ("int " +:+ "x1" +:+ String ";" "y") (size "int ") =
  Ok ("x1"%string, SizeT.decr (size "int " + size "x1")).
Proof.
  apply (getNextWord_terminated "int " "x1" ";" "y").
  - repeat constructor.
  - reflexivity.
  - vm_compute. discriminate.
  - vm_compute. discriminate.
Defined.

(** X6.  When the run of letters and digits reaches the end of the input,
    [getNextWord] returns the empty string, not the run, and leaves the
    cursor at the end of the input. *)
Theorem getNextWord_at_end pre w :
  all_chars isAlphaNumeric w ->
  fits (pre +:+ w) ->
  getNextWord subscript (pre +:+ w) (size pre) = Ok (EmptyString, size (pre +:+ w)).
Proof.
  intros Hw Hfits. unfold getNextWord.
  pose proof (word_loop_run w pre EmptyString (String.length (pre +:+ w)) Hw) as Hrun.
  rewrite append_nil_r in Hrun.
  rewrite Hrun; [| auto | exact Hfits |].
  2:{ assert (size w <= size (pre +:+ w)) by (rewrite size_app; lia).
      unfold size in *. lia. }
  bind_step. rewrite <- size_app.
  destruct (N.ltb_spec (size (pre +:+ w)) (size (pre +:+ w))); [lia | reflexivity].
Qed.

Lemma getNextWord_at_end_witness :
  getNextWord subscript ("a " +:+ "bc") (size "a ") =
  Ok (EmptyString, size ("a " +:+ "bc")).
Proof.
  apply (getNextWord_at_end "a " "bc").
  - repeat constructor.
  - vm_compute. discriminate.
Defined.

Lemma isDigit_not_point c : isDigit c = true -> Ascii.eqb c "." = false.
Proof.
  intros H.
  destruct c as [[] [] [] [] [] [] [] []]; vm_compute in H; try discriminate H;
    reflexivity.
Qed.

Lemma number_loop_eq idx fuel inp pos hasDecimal :
  number_loop idx fuel inp pos hasDecimal =
  if pos <? size inp then
    c ← idx inp pos;
    if isDigit c || Ascii.eqb c "." then
      if Ascii.eqb c "." && hasDecimal then Ok pos
      else
        match fuel with
        | O => Err Exhausted
        | S fuel =>
            number_loop idx fuel inp (SizeT.incr pos)
                        (if Ascii.eqb c "." then true else hasDecimal)
        end
    else Ok pos
  else Ok pos.
Proof. destruct fuel; reflexivity. Qed.

Lemma number_loop_run num :
  forall pre rest dec fuel,
  number_text num dec = true ->
  number_stops rest (seen_point num dec) ->
  fits (pre +:+ num +:+ rest) ->
  (String.length num <= fuel)%nat ->
  number_loop subscript fuel (pre +:+ num +:+ rest) (size pre) dec =
  Ok (size pre + size num).
Proof.
  induction num as [|c num IH]; intros pre rest dec fuel Hnum Hrest Hfits Hfuel.
  - change (EmptyString +:+ rest) with rest in *.
    rewrite number_loop_eq, size_nil, N.add_0_r. simpl in Hrest.
    destruct rest as [|t rest'].
    + rewrite append_nil_r.
      destruct (N.ltb_spec (size pre) (size pre)); [lia | reflexivity].
    + destruct Hrest as [Hd Hp].
      destruct (N.ltb_spec (size pre) (size (pre +:+ String t rest'))) as [Hlt|Hge];
        [|reflexivity].
      rewrite (subscript_inside _ _ Hlt), char_at_middle. bind_step.
      rewrite Hd. simpl orb.
      destruct (Ascii.eqb t ".") eqn:Ht; [|reflexivity].
      rewrite (Hp eq_refl). reflexivity.
  - change (String c num +:+ rest) with (String c (num +:+ rest)) in *.
    assert (Hlt : size pre < size (pre +:+ String c (num +:+ rest))).
    { rewrite size_app, size_String. lia. }
    assert (Hsplit : pre +:+ String c (num +:+ rest)
                     = (pre +:+ string1 c) +:+ num +:+ rest).
    { rewrite append_assoc. reflexivity. }
    rewrite number_loop_eq.
    destruct (N.ltb_spec (size pre) (size (pre +:+ String c (num +:+ rest)))); [|lia].
    rewrite (subscript_inside _ _ Hlt), char_at_middle. bind_step.
    destruct fuel as [|fuel]; [simpl in Hfuel; lia|].
    rewrite (incr_below _ _ Hlt Hfits).
    replace (size pre + 1) with (size (pre +:+ string1 c))
      by (rewrite size_app; reflexivity).
    assert (Hsize : size (pre +:+ string1 c) + size num
                    = size pre + size (String c num)).
    { rewrite size_app, size_String. unfold string1.
      rewrite size_String, size_nil. lia. }
    simpl in Hnum, Hrest, Hfuel.
    destruct (isDigit c) eqn:Hd.
    + rewrite (isDigit_not_point c Hd) in *. simpl.
      rewrite orb_false_r in Hrest.
      rewrite Hsplit, IH; [f_equal; exact Hsize | exact Hnum | exact Hrest
                           | rewrite <- Hsplit; exact Hfits | lia].
    + destruct (Ascii.eqb c ".") eqn:Hp; [|discriminate].
      apply andb_true_iff in Hnum as [Hdec Hnum].
      apply negb_true_iff in Hdec. subst dec. simpl.
      rewrite Hsplit, IH; [f_equal; exact Hsize | exact Hnum | exact Hrest
                           | rewrite <- Hsplit; exact Hfits | lia].
Qed.

(** The number that [getNextNumber] returns. *)
Lemma getNextNumber_number pre num rest :
  number_text num false = true ->
  number_stops rest (seen_point num false) ->
  fits (pre +:+ num +:+ rest) ->
  getNextNumber subscript (pre +:+ num +:+ rest) (size pre) =
  Ok (num, size pre + size num).
Proof.
  intros Hnum Hrest Hfits. unfold getNextNumber.
  set (inp := pre +:+ num +:+ rest) in *.
  assert (Hlen : size inp = size pre + size num + size rest).
  { unfold inp. rewrite !size_app. lia. }
  rewrite (number_loop_run num pre rest false _ Hnum Hrest Hfits).
  2:{ assert (size num <= size inp) by lia. unfold size in *. lia. }
  bind_step. rewrite substr_ok by lia. bind_step.
  rewrite sub_below; [| lia | apply (fits_below_modulus inp); [exact Hfits | lia]].
  replace (size pre + size num - size pre) with (size num) by lia.
  unfold size at 1 2. rewrite !Nat2N.id. unfold inp.
  rewrite substring_middle. reflexivity.
Qed.

(** X10.  [getNextNumber] returns the longest run of digits with at most one
    decimal point that starts at the cursor (a second point ends it), and
    leaves the cursor just after it. *)
Theorem getNextNumber_lexeme pre num rest :
  number_text num false = true ->
  number_stops rest (seen_point num false) ->
  fits (pre +:+ num +:+ rest) ->
  getNextNumber subscript (pre +:+ num +:+ rest) (size pre) =
  Ok (num, size pre + size num).
Proof. exact (getNextNumber_number pre num rest). Qed.

Lemma getNextNumber_lexeme_witness :
  getNextNumber subscript ("x=" +:+ "3.14" +:+ ".15;") (size "x=") =
  Ok ("3.14"%string, size "x=" + size "3.14").
Proof.
  apply (getNextNumber_lexeme "x=" "3.14" ".15;").
  - reflexivity.
  - split; [reflexivity | reflexivity].
  - vm_compute. discriminate.
Defined.

Lemma isAlpha_alnum c : isAlpha c = true -> isAlphaNumeric c = true.
Proof. intros H. unfold isAlphaNumeric. rewrite H. reflexivity. Qed.

(** ** Words *)

Lemma word_all_alnum a w :
  isAlpha a = true -> all_chars isAlphaNumeric w ->
  all_chars isAlphaNumeric (String a w).
Proof.
  intros Halpha Hw. apply Forall_cons.
  split; [apply isAlpha_alnum; exact Halpha | exact Hw].
Qed.

(** The iteration on a word that another character follows. *)
Lemma step_word s pre a w t rest :
  input s = pre +:+ String a w +:+ String t rest ->
  position s = size pre ->
  inMultiLineComment s = false ->
  fits (input s) ->
  isAlpha a = true ->
  all_chars isAlphaNumeric w ->
  isAlphaNumeric t = false ->
  size pre + size (String a w) <> 95 ->
  step subscript s =
  Ok (Some (mkState (input s) (size pre + size (String a w))
                    (cleanedInput s +:+ String a w)
                    (tokens s ++ [mkToken (word_category (String a w)) (String a w)])
                    false)).
Proof.
  intros Hinput Hpos Hcom Hfits Halpha Hw Ht H95.
  assert (Hlt : position s < size (input s)).
  { rewrite Hinput, Hpos, !size_app, !size_String. lia. }
  assert (Hc : char_at (input s) (position s) = a).
  { rewrite Hinput, Hpos. apply char_at_middle. }
  destruct (isAlpha_plain _ Halpha) as (Hws & Hhash & Hslash).
  rewrite (step_plain s a Hlt Hc Hws Hhash Hslash Hcom).
  unfold dispatch. rewrite Halpha, Hinput, Hpos.
  rewrite getNextWord_word;
    [| apply word_all_alnum; assumption | exact Ht | exact H95
     | rewrite <- Hinput; exact Hfits].
  bind_step. unfold word_category.
  assert (Hsz : size pre + size (String a w) < SizeT.modulus).
  { apply (fits_below_modulus (input s)); [exact Hfits|].
    rewrite Hinput, !size_app, !size_String. lia. }
  assert (Hcur : SizeT.incr (SizeT.decr (size pre + size (String a w)))
                 = size pre + size (String a w)).
  { rewrite decr_positive; [| rewrite size_String; lia | exact Hsz].
    unfold SizeT.incr, SizeT.add, SizeT.wrap.
    rewrite size_String in *.
    replace (size pre + (size w + 1) - 1 + 1) with (size pre + (size w + 1)) by lia.
    apply N.mod_small. exact Hsz. }
  destruct (is_keyword (String a w));
    unfold with_position, append_cleaned, emplace_back; simpl;
    rewrite Hcur, Hcom, <- Hinput; reflexivity.
Qed.

(** X8.  Outside a comment, on a word that starts with a letter and is
    followed by another character, the iteration emits one token whose lexeme
    is the whole word, KEYWORD or IDENTIFIER by the keyword table, appends the
    word to the cleaned text and leaves the cursor on the character that
    follows the word. *)
Theorem word_step s pre a w t rest :
  input s = pre +:+ String a w +:+ String t rest ->
  position s = size pre ->
  inMultiLineComment s = false ->
  fits (input s) ->
  isAlpha a = true ->
  all_chars isAlphaNumeric w ->
  isAlphaNumeric t = false ->
  size pre + size (String a w) <> 95 ->
  step subscript s =
  Ok (Some (mkState (input s) (size pre + size (String a w))
                    (cleanedInput s +:+ String a w)
                    (tokens s ++ [mkToken (word_category (String a w)) (String a w)])
                    false)).
Proof. exact (step_word s pre a w t rest). Qed.

Lemma word_step_witness :
  step subscript (init "int x") =
  Ok (Some (mkState (input (init "int x")) (size EmptyString + size "int")
                    (cleanedInput (init "int x") +:+ "int")
                    (tokens (init "int x")
                       ++ [mkToken (word_category "int") "int"])
                    false)).
Proof.
  apply (word_step (init "int x") EmptyString "i" "nt" " " "x").
  - reflexivity.
  - reflexivity.
  - reflexivity.
  - vm_compute. discriminate.
  - reflexivity.
  - repeat constructor.
  - reflexivity.
  - vm_compute. discriminate.
Defined.

(** X9.  A word that runs to the end of the input is lost: the iteration
    emits IDENTIFIER with the empty lexeme (even for a keyword), appends
    nothing to the cleaned text, and [tokenize] returns. *)
Theorem word_at_end_of_input s pre a w :
  input s = pre +:+ String a w ->
  position s = size pre ->
  inMultiLineComment s = false ->
  fits (input s) ->
  isAlpha a = true ->
  all_chars isAlphaNumeric w ->
  forall fuel,
  run subscript (S fuel) s =
  Returned (mkState (input s) (size (input s) + 1) (cleanedInput s)
                    (tokens s ++ [mkToken IDENTIFIER EmptyString]) false).
Proof.
  intros Hinput Hpos Hcom Hfits Halpha Hw fuel.
  assert (Hlt : position s < size (input s)).
  { rewrite Hinput, Hpos, !size_app, !size_String. lia. }
  assert (Hc : char_at (input s) (position s) = a).
  { rewrite Hinput, Hpos. apply char_at_middle. }
  destruct (isAlpha_plain _ Halpha) as (Hws & Hhash & Hslash).
  rewrite run_unfold, (step_plain s a Hlt Hc Hws Hhash Hslash Hcom).
  unfold dispatch. rewrite Halpha, Hinput, Hpos.
  rewrite getNextWord_at_end;
    [| apply word_all_alnum; assumption | rewrite <- Hinput; exact Hfits].
  bind_step. rewrite <- Hinput.
  change (is_keyword EmptyString) with false. cbv iota.
  unfold with_position, append_cleaned, emplace_back. simpl.
  rewrite append_nil_r, Hcom, (incr_upto (size (input s))) by exact Hfits.
  apply run_done, step_done. simpl. lia.
Qed.

Lemma word_at_end_of_input_witness :
  run subscript 1 (init "int") =
  Returned (mkState (input (init "int")) (size (input (init "int")) + 1)
                    (cleanedInput (init "int"))
                    (tokens (init "int") ++ [mkToken IDENTIFIER EmptyString])
                    false).
Proof.
  refine (word_at_end_of_input (init "int") EmptyString "i" "nt" _ _ _ _ _ _ 0%nat).
  - reflexivity.
  - reflexivity.
  - reflexivity.
  - vm_compute. discriminate.
  - reflexivity.
  - repeat constructor.
Defined.

(** ** Line comments *)

Lemma line_loop_eq idx fuel inp pos :
  line_loop idx fuel inp pos =
  if pos <? size inp then
    c ← idx inp pos;
    if negb (Ascii.eqb c "010") then
      match fuel with
      | O => Err Exhausted
      | S fuel => line_loop idx fuel inp (SizeT.incr pos)
      end
    else Ok pos
  else Ok pos.
Proof. destruct fuel; reflexivity. Qed.

Lemma line_loop_run text :
  forall pre rest fuel,
  all_chars not_newline text ->
  line_ends rest ->
  fits (pre +:+ text +:+ rest) ->
  (String.length text <= fuel)%nat ->
  line_loop subscript fuel (pre +:+ text +:+ rest) (size pre) =
  Ok (size pre + size text).
Proof.
  induction text as [|c text IH]; intros pre rest fuel Htext Hrest Hfits Hfuel.
  - change (EmptyString +:+ rest) with rest in *.
    rewrite line_loop_eq, size_nil, N.add_0_r.
    destruct rest as [|t rest'].
    + rewrite append_nil_r.
      destruct (N.ltb_spec (size pre) (size pre)); [lia | reflexivity].
    + simpl in Hrest. subst t.
      destruct (N.ltb_spec (size pre) (size (pre +:+ String "010" rest')))
        as [Hlt|Hge]; [|reflexivity].
      rewrite (subscript_inside _ _ Hlt), char_at_middle. reflexivity.
  - apply Forall_cons in Htext as [Hc Htext]. unfold not_newline in Hc.
    change (String c text +:+ rest) with (String c (text +:+ rest)) in *.
    assert (Hlt : size pre < size (pre +:+ String c (text +:+ rest))).
    { rewrite size_app, size_String. lia. }
    assert (Hsplit : pre +:+ String c (text +:+ rest)
                     = (pre +:+ string1 c) +:+ text +:+ rest).
    { rewrite append_assoc. reflexivity. }
    rewrite line_loop_eq.
    destruct (N.ltb_spec (size pre) (size (pre +:+ String c (text +:+ rest))));
      [|lia].
    rewrite (subscript_inside _ _ Hlt), char_at_middle. bind_step. rewrite Hc.
    destruct fuel as [|fuel]; [simpl in Hfuel; lia|].
    rewrite (incr_below _ _ Hlt Hfits).
    replace (size pre + 1) with (size (pre +:+ string1 c))
      by (rewrite size_app; reflexivity).
    rewrite Hsplit, IH; [| exact Htext | exact Hrest
                         | rewrite <- Hsplit; exact Hfits | simpl in Hfuel; lia].
    f_equal. rewrite size_app, size_String. unfold string1.
    rewrite size_String, size_nil. lia.
Qed.

(** X4.  Two slashes skip the rest of the line, whether the scan is inside a
    multi-line comment or not: nothing is emitted, nothing is appended, and
    the cursor is left on the newline, or at the end of the input. *)
Theorem line_comment_step s pre text rest :
  input s = pre +:+ ("//" +:+ text) +:+ rest ->
  position s = size pre ->
  fits (input s) ->
  all_chars not_newline text ->
  line_ends rest ->
  step subscript s =
  Ok (Some (with_position s (size pre + size ("//" +:+ text)))).
Proof.
  intros Hinput Hpos Hfits Htext Hrest.
  assert (Hlen : size (input s) = size pre + (size text + 2) + size rest).
  { rewrite Hinput, !size_app. change (size "//") with 2. lia. }
  assert (Hlt : position s < size (input s)) by lia.
  assert (Hc : char_at (input s) (position s) = "/"%char).
  { rewrite Hinput, Hpos. apply char_at_middle. }
  assert (Hnext : subscript (input s) (SizeT.incr (position s)) = Ok "/"%char).
  { rewrite (incr_below _ _ Hlt Hfits), subscript_inside by lia.
    f_equal. rewrite Hinput, Hpos.
    replace (pre +:+ ("//" +:+ text) +:+ rest)
      with ((pre +:+ "/") +:+ String "/" (text +:+ rest))
      by (rewrite append_assoc; reflexivity).
    replace (size pre + 1) with (size (pre +:+ "/"))
      by (rewrite size_app; reflexivity).
    apply char_at_middle. }
  unfold step.
  destruct (N.ltb_spec (position s) (size (input s))); [|lia].
  rewrite (subscript_inside _ _ Hlt), Hc. bind_step.
  change (isWhitespace "/") with false. cbv iota.
  unfold directive. change (Ascii.eqb "/" "#") with false. cbv iota. bind_step.
  unfold lookahead. rewrite Hnext. simpl andM. bind_step. simpl andM. bind_step.
  rewrite Hinput, Hpos, line_loop_run;
    [reflexivity | | exact Hrest | rewrite <- Hinput; exact Hfits |].
  - apply Forall_cons. split; [reflexivity|].
    apply Forall_cons. split; [reflexivity | exact Htext].
  - rewrite <- Hinput.
    assert (size ("//" +:+ text) <= size (input s))
      by (rewrite size_app; change (size "//") with 2; lia).
    unfold size in *. lia.
Qed.

Lemma line_comment_step_witness :
  step subscript
       (mkState ("x " +:+ ("//" +:+ " set") +:+ String "010" "y") 2 "x"
                [mkToken IDENTIFIER "x"] false) =
  Ok (Some (with_position
              (mkState ("x " +:+ ("//" +:+ " set") +:+ String "010" "y") 2 "x"
                       [mkToken IDENTIFIER "x"] false)
              (size "x " + size ("//" +:+ " set")))).
Proof.
  apply (line_comment_step
           (mkState ("x " +:+ ("//" +:+ " set") +:+ String "010" "y") 2 "x"
                    [mkToken IDENTIFIER "x"] false)
           "x " " set" (String "010" "y")).
  - reflexivity.
  - reflexivity.
  - vm_compute. discriminate.
  - repeat constructor.
  - reflexivity.
Defined.

Lemma get_beyond s n : (String.length s <= n)%nat -> String.get n s = None.
Proof.
  revert n. induction s as [|c s IH]; intros n Hn; [reflexivity|].
  destruct n as [|n]; simpl in *; [lia|]. apply IH. lia.
Qed.

Lemma char_at_beyond s i : size s <= i -> char_at s i = NUL.
Proof.
  intros Hi. unfold char_at. rewrite get_beyond; [reflexivity|].
  unfold size in Hi. lia.
Qed.

(** The character that a lookahead reads: the next one, or the terminating
    null character after the last one. *)
Lemma peek_char inp pos :
  fits inp -> pos < size inp ->
  subscript inp (SizeT.incr pos) = Ok (char_at inp (pos + 1)).
Proof.
  intros Hfits Hlt. rewrite (incr_below _ _ Hlt Hfits). unfold subscript.
  destruct (N.ltb_spec (pos + 1) (size inp)); [reflexivity|].
  destruct (N.eqb_spec (pos + 1) (size inp)); [|lia].
  rewrite char_at_beyond by lia. reflexivity.
Qed.

Lemma lookahead_char inp pos e :
  fits inp -> pos < size inp ->
  lookahead subscript inp pos e = Ok (Ascii.eqb (char_at inp (pos + 1)) e).
Proof.
  intros Hfits Hlt. unfold lookahead. rewrite peek_char by assumption.
  reflexivity.
Qed.

(** The iteration on a character that is a token of its own. *)
Lemma step_single s :
  fits (input s) ->
  position s < size (input s) ->
  inMultiLineComment s = false ->
  lone_character (char_at (input s) (position s)) = true ->
  starts_pair (char_at (input s) (position s))
              (char_at (input s) (position s + 1)) = false ->
  step subscript s =
  Ok (Some (mkState (input s) (position s + 2)
              (cleanedInput s +:+ string1 (char_at (input s) (position s)))
              (tokens s ++
               [mkToken (single_category (char_at (input s) (position s)))
                        (string1 (char_at (input s) (position s)))])
              false)).
Proof.
  intros Hfits Hlt Hcom Hlone Hpair.
  set (c := char_at (input s) (position s)) in *.
  set (n := char_at (input s) (position s + 1)) in *.
  unfold lone_character in Hlone.
  repeat (apply andb_true_iff in Hlone as [Hlone ?]).
  repeat match goal with H : negb _ = true |- _ => apply negb_true_iff in H end.
  unfold starts_pair in Hpair.
  repeat (apply orb_false_iff in Hpair as [Hpair ?]).
  assert (Hcur : SizeT.incr (SizeT.incr (position s)) = position s + 2).
  { rewrite (incr_below _ _ Hlt Hfits), incr_upto; [lia|].
    unfold fits in Hfits. lia. }
  unfold step.
  destruct (N.ltb_spec (position s) (size (input s))); [|lia].
  rewrite (subscript_inside _ _ Hlt). fold c. bind_step.
  rewrite Hlone. unfold directive.
  match goal with H : Ascii.eqb c "#" = false |- _ => rewrite H end.
  bind_step. rewrite !(lookahead_char _ _ _ Hfits Hlt). fold n.
  assert (Hblock : andM (Ascii.eqb c "/") (Ok (Ascii.eqb n "*")) = Ok false).
  { destruct (Ascii.eqb c "/"); [|reflexivity]. simpl in *.
    apply orb_false_iff in Hpair as [-> _]. reflexivity. }
  assert (Hline : andM (Ascii.eqb c "/") (Ok (Ascii.eqb n "/")) = Ok false).
  { destruct (Ascii.eqb c "/"); [|reflexivity]. simpl in *.
    apply orb_false_iff in Hpair as [_ ->]. reflexivity. }
  rewrite Hblock. bind_step. rewrite Hline. bind_step.
  unfold finish, comment_end. rewrite Hcom. simpl andM. bind_step.
  unfold classify. rewrite Hcom. simpl negb. cbv iota.
  unfold dispatch.
  repeat match goal with
         | H : isAlpha c = false |- _ => rewrite H; clear H
         | H : isDigit c = false |- _ => rewrite H; clear H
         | H : Ascii.eqb c underscore = false |- _ => rewrite H; clear H
         | H : Ascii.eqb c dquote = false |- _ => rewrite H; clear H
         end.
  simpl orb. cbv iota.
  rewrite !(lookahead_char _ _ _ Hfits Hlt). fold n.
  assert (Hshl : andM (Ascii.eqb c "<") (Ok (Ascii.eqb n "<")) = Ok false).
  { destruct (Ascii.eqb c "<"); [|reflexivity]. simpl in *. congruence. }
  assert (Hshr : andM (Ascii.eqb c ">") (Ok (Ascii.eqb n ">")) = Ok false).
  { destruct (Ascii.eqb c ">"); [|reflexivity]. simpl in *. congruence. }
  rewrite Hshl. bind_step. rewrite Hshr. bind_step.
  unfold single_category, single, with_position, append_cleaned, emplace_back.
  destruct (is_operator_char c); [|destruct (is_separator_char c)];
    bind_step; simpl; rewrite Hcur, Hcom; reflexivity.
Qed.

(** X11.  Outside a comment, a character that is neither white space, [#], a
    letter, an underscore, a digit nor a double quote, and that does not
    start a comment or a shift operator with its successor, becomes a token
    of one character: OPERATOR or SEPARATOR when it is in the corresponding
    list, UNKNOWN otherwise.  The cursor moves by two, so the character that
    follows is not scanned. *)
Theorem single_character_step s :
  fits (input s) ->
  position s < size (input s) ->
  inMultiLineComment s = false ->
  lone_character (char_at (input s) (position s)) = true ->
  starts_pair (char_at (input s) (position s))
              (char_at (input s) (position s + 1)) = false ->
  step subscript s =
  Ok (Some (mkState (input s) (position s + 2)
              (cleanedInput s +:+ string1 (char_at (input s) (position s)))
              (tokens s ++
               [mkToken (single_category (char_at (input s) (position s)))
                        (string1 (char_at (input s) (position s)))])
              false)).
Proof. exact (step_single s). Qed.

Lemma single_character_step_witness :
  step subscript (init "<=") =
  Ok (Some (mkState (input (init "<=")) (position (init "<=") + 2)
              (cleanedInput (init "<=")
               +:+ string1 (char_at (input (init "<=")) (position (init "<="))))
              (tokens (init "<=") ++
               [mkToken (single_category
                           (char_at (input (init "<=")) (position (init "<="))))
                        (string1 (char_at (input (init "<="))
                                          (position (init "<="))))])
              false)).
Proof.
  apply (single_character_step (init "<=")).
  - vm_compute. discriminate.
  - vm_compute. reflexivity.
  - reflexivity.
  - reflexivity.
  - reflexivity.
Defined.

Lemma underscore_loop_eq idx fuel inp pos word :
  underscore_loop idx fuel inp pos word =
  if pos <? size inp then
    c ← idx inp pos;
    if isAlphaNumeric c || Ascii.eqb c underscore then
      match fuel with
      | O => Err Exhausted
      | S fuel => underscore_loop idx fuel inp (SizeT.incr pos) (word +:+ string1 c)
      end
    else Ok (pos, word)
  else Ok (pos, word).
Proof. destruct fuel; reflexivity. Qed.

Section Bounds.
Variable inp : string.
Hypothesis Hfits : fits inp.

Lemma word_loop_bounds fuel :
  forall pos p, word_loop subscript fuel inp pos = Ok p ->
  pos <= size inp -> pos <= p <= size inp.
Proof.
  induction fuel as [|fuel IH]; intros pos p H Hpos; rewrite word_loop_eq in H;
    destruct (N.ltb_spec pos (size inp)) as [Hlt|Hge];
    try (injection H as <-; lia);
    rewrite (subscript_inside _ _ Hlt) in H; bind_step in H;
    destruct (_ && _); try discriminate; try (injection H as <-; lia).
  apply IH in H; rewrite (incr_below _ _ Hlt Hfits) in *; lia.
Qed.

Lemma word_loop_first fuel pos p :
  word_loop subscript fuel inp pos = Ok p -> pos < size inp ->
  if isAlphaNumeric (char_at inp pos) then pos < p else p = pos.
Proof.
  intros H Hlt. rewrite word_loop_eq in H.
  destruct (N.ltb_spec pos (size inp)); [|lia].
  rewrite (subscript_inside _ _ Hlt) in H. bind_step in H.
  destruct (isAlphaNumeric (char_at inp pos)) eqn:Hc.
  - rewrite (isAlphaNumeric_not_underscore _ Hc) in H. simpl in H.
    destruct fuel as [|fuel]; [discriminate|].
    apply word_loop_bounds in H; rewrite (incr_below _ _ Hlt Hfits) in *; lia.
  - simpl in H. injection H as <-. reflexivity.
Qed.

Lemma number_loop_bounds fuel :
  forall pos dec p, number_loop subscript fuel inp pos dec = Ok p ->
  pos <= size inp -> pos <= p <= size inp.
Proof.
  induction fuel as [|fuel IH]; intros pos dec p H Hpos;
    rewrite number_loop_eq in H;
    destruct (N.ltb_spec pos (size inp)) as [Hlt|Hge];
    try (injection H as <-; lia);
    rewrite (subscript_inside _ _ Hlt) in H; bind_step in H;
    destruct (_ || _); try (injection H as <-; lia);
    destruct (_ && _); try discriminate; try (injection H as <-; lia).
  apply IH in H; rewrite (incr_below _ _ Hlt Hfits) in *; lia.
Qed.

Lemma number_loop_first fuel pos p :
  number_loop subscript fuel inp pos false = Ok p -> pos < size inp ->
  isDigit (char_at inp pos) = true -> pos < p.
Proof.
  intros H Hlt Hd. rewrite number_loop_eq in H.
  destruct (N.ltb_spec pos (size inp)); [|lia].
  rewrite (subscript_inside _ _ Hlt) in H. bind_step in H.
  rewrite Hd, andb_false_r in H. simpl in H.
  destruct fuel as [|fuel]; [discriminate|].
  apply number_loop_bounds in H; rewrite (incr_below _ _ Hlt Hfits) in *; lia.
Qed.

Lemma line_loop_bounds fuel :
  forall pos p, line_loop subscript fuel inp pos = Ok p ->
  pos <= size inp -> pos <= p <= size inp.
Proof.
  induction fuel as [|fuel IH]; intros pos p H Hpos; rewrite line_loop_eq in H;
    destruct (N.ltb_spec pos (size inp)) as [Hlt|Hge];
    try (injection H as <-; lia);
    rewrite (subscript_inside _ _ Hlt) in H; bind_step in H;
    destruct (negb _); try discriminate; try (injection H as <-; lia).
  apply IH in H; rewrite (incr_below _ _ Hlt Hfits) in *; lia.
Qed.

Lemma line_loop_first fuel pos p :
  line_loop subscript fuel inp pos = Ok p -> pos < size inp ->
  char_at inp pos = "/"%char -> pos < p.
Proof.
  intros H Hlt Hc. rewrite line_loop_eq in H.
  destruct (N.ltb_spec pos (size inp)); [|lia].
  rewrite (subscript_inside _ _ Hlt), Hc in H. bind_step in H. simpl in H.
  destruct fuel as [|fuel]; [discriminate|].
  apply line_loop_bounds in H; rewrite (incr_below _ _ Hlt Hfits) in *; lia.
Qed.

(** The identifier grows by one character for each step of the cursor. *)
Lemma underscore_loop_bounds fuel :
  forall pos word p word',
  underscore_loop subscript fuel inp pos word = Ok (p, word') ->
  pos <= size inp ->
  pos <= p <= size inp /\ size word' + pos = size word + p.
Proof.
  induction fuel as [|fuel IH]; intros pos word p word' H Hpos;
    rewrite underscore_loop_eq in H;
    destruct (N.ltb_spec pos (size inp)) as [Hlt|Hge];
    try (injection H as <- <-; lia);
    rewrite (subscript_inside _ _ Hlt) in H; bind_step in H;
    destruct (_ || _); try discriminate; try (injection H as <- <-; lia).
  apply IH in H; rewrite (incr_below _ _ Hlt Hfits) in *; [|lia].
  rewrite size_app in H. unfold string1 in H. rewrite size_String, size_nil in H.
  lia.
Qed.

Lemma underscore_loop_first fuel pos word p word' :
  underscore_loop subscript fuel inp pos word = Ok (p, word') ->
  pos < size inp -> char_at inp pos = underscore -> pos < p.
Proof.
  intros H Hlt Hc. rewrite underscore_loop_eq in H.
  destruct (N.ltb_spec pos (size inp)); [|lia].
  rewrite (subscript_inside _ _ Hlt), Hc in H. bind_step in H. simpl in H.
  destruct fuel as [|fuel]; [discriminate|].
  apply underscore_loop_bounds in H; rewrite (incr_below _ _ Hlt Hfits) in *; lia.
Qed.

(** The literal grows by at most one character for each step of the
    cursor. *)
Lemma string_loop_bounds fuel :
  forall pos lit esc p lit',
  string_loop subscript fuel inp pos lit esc = Ok (p, lit') ->
  pos <= size inp ->
  pos <= p <= size inp /\ size lit' + pos <= size lit + p.
Proof.
  induction fuel as [|fuel IH]; intros pos lit esc p lit' H Hpos;
    rewrite string_loop_eq in H;
    destruct (N.ltb_spec pos (size inp)) as [Hlt|Hge];
    try (injection H as <- <-; lia);
    rewrite (subscript_inside _ _ Hlt) in H; bind_step in H;
    destruct (_ && _);
    try (injection H as <- <-; rewrite (incr_below _ _ Hlt Hfits); lia);
    try discriminate.
  destruct (Ascii.eqb _ backslash); apply IH in H;
    rewrite (incr_below _ _ Hlt Hfits) in *; try lia.
  rewrite size_app in H. unfold string1 in H. rewrite size_String, size_nil in H.
  lia.
Qed.

End Bounds.

Lemma substring_length n m s :
  (String.length (String.substring n m s) <= m)%nat.
Proof.
  revert n m. induction s as [|c s IH]; intros n m.
  - destruct n, m; simpl; lia.
  - destruct n as [|n]; [destruct m as [|m]|]; simpl; [lia | | apply IH].
    specialize (IH 0%nat m). lia.
Qed.

Lemma incr_decr a : a < SizeT.modulus -> SizeT.incr (SizeT.decr a) = a.
Proof.
  intros Ha. destruct (N.eq_dec a 0) as [-> | Hne]; [vm_compute; reflexivity|].
  rewrite decr_positive by lia.
  unfold SizeT.incr, SizeT.add, SizeT.wrap.
  replace (a - 1 + 1) with a by lia. apply N.mod_small. exact Ha.
Qed.

Lemma lexeme_total_snoc ts t :
  lexeme_total (ts ++ [t]) = lexeme_total ts + size (value t).
Proof.
  induction ts as [|x ts IH]; simpl; [lia|]. rewrite IH. lia.
Qed.

Lemma size_substring n m s :
  size (String.substring (N.to_nat n) (N.to_nat m) s) <= m.
Proof.
  unfold size. pose proof (substring_length (N.to_nat n) (N.to_nat m) s). lia.
Qed.

Lemma NUL_not_alnum c : isAlphaNumeric c = true -> c <> NUL.
Proof. intros H ->. discriminate H. Qed.

Lemma char_inside inp i c : char_at inp i = c -> c <> NUL -> i < size inp.
Proof.
  intros Hc Hne. destruct (N.lt_ge_cases i (size inp)) as [|Hge]; [assumption|].
  rewrite (char_at_beyond _ _ Hge) in Hc. congruence.
Qed.

Section WordBounds.
Variable inp : string.
Hypothesis Hfits : fits inp.

Lemma getNextWord_bounds pos w q :
  pos < size inp ->
  getNextWord subscript inp pos = Ok (w, q) ->
  exists p posL,
    pos <= p <= size inp
    /\ (if isAlphaNumeric (char_at inp pos) then pos < p else p = pos)
    /\ (posL = p \/ (posL = p + 1 /\ posL < size inp))
    /\ size w <= posL - pos
    /\ (q = SizeT.decr posL \/ (q = posL /\ w = EmptyString)).
Proof.
  intros Hlt H. unfold getNextWord in H.
  destruct (word_loop subscript _ inp pos) as [p|] eqn:Hloop; [|discriminate].
  bind_step in H.
  pose proof (word_loop_bounds inp Hfits _ _ _ Hloop (N.lt_le_incl _ _ Hlt)) as Hb.
  pose proof (word_loop_first inp Hfits _ _ _ Hloop Hlt) as Hfirst.
  exists p.
  destruct (N.ltb_spec p (size inp)) as [Hp|Hp].
  2:{ injection H as <- <-. exists p. repeat split; auto; try lia.
      change (size EmptyString) with 0. lia. }
  rewrite (subscript_inside _ _ Hp) in H. bind_step in H.
  destruct (negb _).
  2:{ injection H as <- <-. exists p. repeat split; auto; try lia.
      change (size EmptyString) with 0. lia. }
  rewrite (peek_char _ _ Hfits Hp) in H. bind_step in H.
  destruct (p =? N_of_ascii underscore); simpl andM in H.
  - destruct (isAlphaNumeric (char_at inp (p + 1))) eqn:Hnext; bind_step in H.
    + pose proof (char_inside _ _ _ eq_refl (NUL_not_alnum _ Hnext)) as Hin.
      rewrite (incr_below _ _ Hp Hfits) in H.
      rewrite substr_ok in H by lia. bind_step in H. injection H as <- <-.
      exists (p + 1). repeat split; auto; try lia.
      etrans; [apply size_substring|].
      rewrite sub_below; [lia | lia |].
      apply (fits_below_modulus inp); [exact Hfits | lia].
    + rewrite substr_ok in H by lia. bind_step in H. injection H as <- <-.
      exists p. repeat split; auto; try lia.
      etrans; [apply size_substring|].
      rewrite sub_below; [lia | lia |].
      apply (fits_below_modulus inp); [exact Hfits | lia].
  - bind_step in H.
    rewrite substr_ok in H by lia. bind_step in H. injection H as <- <-.
    exists p. repeat split; auto; try lia.
    etrans; [apply size_substring|].
    rewrite sub_below; [lia | lia |].
    apply (fits_below_modulus inp); [exact Hfits | lia].
Qed.

Lemma getNextNumber_bounds pos num p :
  pos < size inp ->
  isDigit (char_at inp pos) = true ->
  getNextNumber subscript inp pos = Ok (num, p) ->
  pos < p <= size inp /\ size num <= p - pos.
Proof.
  intros Hlt Hd H. unfold getNextNumber in H.
  destruct (number_loop subscript _ inp pos false) as [p'|] eqn:Hloop;
    [|discriminate].
  bind_step in H. rewrite substr_ok in H by lia. bind_step in H.
  injection H as <- <-.
  pose proof (number_loop_bounds inp Hfits _ _ _ _ Hloop (N.lt_le_incl _ _ Hlt)).
  pose proof (number_loop_first inp Hfits _ _ _ Hloop Hlt Hd).
  split; [lia|]. etrans; [apply size_substring|].
  rewrite sub_below; [lia | lia |].
  apply (fits_below_modulus inp); [exact Hfits | lia].
Qed.

End WordBounds.

Lemma fits_max s n : fits s -> n <= size s -> n <= max_size.
Proof. unfold fits. lia. Qed.

Lemma guarded_pair_inside inp pos (a : bool) e :
  fits inp -> pos < size inp -> e <> NUL ->
  andM a (lookahead subscript inp pos e) = Ok true ->
  pos + 1 < size inp.
Proof.
  intros Hfits Hlt He H. destruct a; [|discriminate].
  simpl in H. rewrite (lookahead_char _ _ _ Hfits Hlt) in H.
  injection H as H. apply Ascii.eqb_eq in H.
  apply (char_inside inp (pos + 1) e H He).
Qed.

(** Outside of the directive branch, whatever the classification branch
    taken, the cursor ends beyond where it was. *)
Lemma dispatch_progress s :
  fits (input s) ->
  position s < size (input s) ->
  exists s1,
    dispatch subscript (char_at (input s) (position s)) s = Ok s1
    /\ advances s (with_position s1 (SizeT.incr (position s1))).
Proof.
  intros Hfits Hlt. set (c := char_at (input s) (position s)).
  set (inp := input s) in *. set (pos := position s) in *.
  assert (Hmod : forall n, n <= size inp + 2 -> n < SizeT.modulus)
    by (intros n; apply fits_below_modulus; exact Hfits).
  assert (Hmax : forall n, n <= size inp -> n <= max_size)
    by (intros n; apply fits_max; exact Hfits).
  unfold dispatch. fold inp pos.
  destruct (isAlpha c) eqn:Halpha.
  { destruct (getNextWord_ok inp Hfits pos) as [[w q] Hw]; [lia|].
    rewrite Hw. bind_step.
    destruct (getNextWord_bounds inp Hfits pos w q Hlt Hw)
      as (p & posL & Hp & Hfirst & HposL & Hsize & Hq).
    fold c in Hfirst. rewrite (isAlpha_alnum c Halpha) in Hfirst.
    eexists. split; [reflexivity|].
    assert (Htok : forall t, lexeme_total (tokens s ++ [mkToken t w])
                             = lexeme_total (tokens s) + size w)
      by (intros t; apply lexeme_total_snoc).
    unfold advances.
    destruct (is_keyword w); simpl; rewrite Htok; fold inp pos;
      (split; [reflexivity|]); (split; [reflexivity|]);
      (destruct Hq as [-> | [-> ->]];
       [rewrite incr_decr by (apply Hmod; lia)
       | rewrite incr_upto by (apply Hmax; lia);
         change (size EmptyString) with 0]); lia. }
  simpl orb.
  destruct (Ascii.eqb c underscore) eqn:Hunder.
  { destruct (underscore_loop_ok inp Hfits (String.length inp) pos EmptyString
                (size_fuel _ _)) as [[p w] Hloop].
    rewrite Hloop. bind_step.
    destruct (underscore_loop_bounds inp Hfits _ _ _ _ _ Hloop
                (N.lt_le_incl _ _ Hlt)) as [Hp Hsize].
    apply Ascii.eqb_eq in Hunder.
    pose proof (underscore_loop_first inp Hfits _ _ _ _ _ Hloop Hlt Hunder).
    eexists. split; [reflexivity|].
    unfold advances. simpl. rewrite lexeme_total_snoc. simpl. fold inp pos.
    rewrite incr_upto by (apply Hmax; lia).
    change (size EmptyString) with 0 in Hsize.
    repeat split; try reflexivity; try lia. }
  destruct (isDigit c) eqn:Hdigit.
  { destruct (getNextNumber_ok inp Hfits pos) as [[num p] Hnum]; [lia|].
    rewrite Hnum. bind_step.
    destruct (getNextNumber_bounds inp Hfits pos num p Hlt Hdigit Hnum)
      as [Hp Hsize].
    eexists. split; [reflexivity|].
    unfold advances. simpl. rewrite lexeme_total_snoc. simpl. fold inp pos.
    rewrite incr_upto by (apply Hmax; lia).
    repeat split; try reflexivity; try lia. }
  destruct (guarded_lookahead_ok inp Hfits (Ascii.eqb c "<") pos "<" Hlt)
    as [shl Hshl].
  rewrite Hshl. bind_step. destruct shl.
  { pose proof (guarded_pair_inside inp pos _ "<" Hfits Hlt
                  ltac:(discriminate) Hshl) as Hin.
    eexists. split; [reflexivity|].
    unfold advances, shift. simpl. rewrite lexeme_total_snoc. simpl.
    fold inp pos.
    rewrite (add2_below _ _ Hlt Hfits), incr_upto by (apply Hmax; lia).
    change (size "<<") with 2.
    repeat split; try reflexivity; try lia. }
  destruct (guarded_lookahead_ok inp Hfits (Ascii.eqb c ">") pos ">" Hlt)
    as [shr Hshr].
  rewrite Hshr. bind_step. destruct shr.
  { pose proof (guarded_pair_inside inp pos _ ">" Hfits Hlt
                  ltac:(discriminate) Hshr) as Hin.
    eexists. split; [reflexivity|].
    unfold advances, shift. simpl. rewrite lexeme_total_snoc. simpl.
    fold inp pos.
    rewrite (add2_below _ _ Hlt Hfits), incr_upto by (apply Hmax; lia).
    change (size ">>") with 2.
    repeat split; try reflexivity; try lia. }
  assert (Hsingle : forall t,
            advances s (with_position (single t c s)
                                      (SizeT.incr (position (single t c s))))).
  { intros t. unfold advances, single. simpl. rewrite lexeme_total_snoc. simpl.
    fold inp pos.
    rewrite (incr_below _ _ Hlt Hfits), incr_upto by (apply Hmax; lia).
    change (size (string1 c)) with 1.
    repeat split; try reflexivity; try lia. }
  destruct (is_operator_char c); [eexists; split; [reflexivity | apply Hsingle]|].
  destruct (is_separator_char c); [eexists; split; [reflexivity | apply Hsingle]|].
  destruct (Ascii.eqb c dquote); [|eexists; split; [reflexivity | apply Hsingle]].
  destruct (string_loop_ok inp Hfits (String.length inp) (SizeT.incr pos)
              EmptyString false) as [[p lit] Hloop].
  { rewrite (incr_below _ _ Hlt Hfits). unfold size. lia. }
  rewrite Hloop. bind_step.
  destruct (string_loop_bounds inp Hfits _ _ _ _ _ _ Hloop) as [Hp Hsize].
  { rewrite (incr_below _ _ Hlt Hfits). lia. }
  rewrite (incr_below _ _ Hlt Hfits) in Hp, Hsize.
  change (size EmptyString) with 0 in Hsize.
  eexists. split; [reflexivity|].
  unfold advances.
  destruct (String.eqb lit EmptyString); simpl; rewrite ?lexeme_total_snoc;
    simpl; fold inp pos; rewrite incr_upto by (apply Hmax; lia);
    repeat split; try reflexivity; try lia.
Qed.

Lemma no_block_opener_at inp :
  has_block_opener inp = false ->
  forall i, char_at inp i = "/"%char -> char_at inp (i + 1) <> "*"%char.
Proof.
  induction inp as [|c inp IH]; intros Hno i Hslash Hstar.
  - discriminate Hslash.
  - simpl in Hno. apply orb_false_iff in Hno as [Hhere Hno].
    destruct (N.eq_dec i 0) as [-> | Hne].
    + change (char_at (String c inp) 0) with c in Hslash. subst c.
      change (0 + 1) with (0 + 1) in Hstar.
      rewrite (char_at_tail "/" inp 0) in Hstar.
      destruct inp as [|d inp']; [discriminate Hstar|].
      change (char_at (String d inp') 0) with d in Hstar. subst d.
      discriminate Hhere.
    + replace i with (i - 1 + 1) in Hslash by lia.
      replace (i + 1) with (i - 1 + 1 + 1) in Hstar by lia.
      rewrite char_at_tail in Hslash, Hstar.
      exact (IH Hno (i - 1) Hslash Hstar).
Qed.

Lemma getNextWord_hash inp pos :
  fits inp -> pos < size inp -> char_at inp pos = "#"%char ->
  forall w q, getNextWord subscript inp pos = Ok (w, q) ->
  exists posL,
    (posL = pos \/ (posL = pos + 1 /\ posL < size inp))
    /\ size w <= posL - pos
    /\ (SizeT.incr (SizeT.incr q) = posL + 1
        \/ (SizeT.incr (SizeT.incr q) = posL + 2 /\ w = EmptyString)).
Proof.
  intros Hfits Hlt Hc w q Hw.
  destruct (getNextWord_bounds inp Hfits pos w q Hlt Hw)
    as (p & posL & Hp & Hfirst & HposL & Hsize & Hq).
  rewrite Hc in Hfirst. change (isAlphaNumeric "#") with false in Hfirst.
  cbv iota in Hfirst. subst p. exists posL.
  split; [exact HposL|]. split; [exact Hsize|].
  assert (Hmod : posL < SizeT.modulus)
    by (apply (fits_below_modulus inp); [exact Hfits | lia]).
  assert (Hmax : posL <= max_size)
    by (apply (fits_max inp); [exact Hfits | lia]).
  destruct Hq as [-> | [-> ->]].
  - left. rewrite incr_decr by exact Hmod. apply incr_upto. exact Hmax.
  - right. split; [|reflexivity].
    rewrite (incr_upto posL Hmax), incr_upto; [lia|].
    unfold fits in Hfits. rewrite max_size_eq in *. lia.
Qed.

(** Outside a multi-line comment, and as long as no comment opens, every
    iteration moves the cursor forward. *)
Lemma step_progress s :
  fits (input s) ->
  has_block_opener (input s) = false ->
  inMultiLineComment s = false ->
  position s < size (input s) ->
  exists s', step subscript s = Ok (Some s') /\ advances s s'.
Proof.
  intros Hfits Hno Hcom Hlt.
  set (c := char_at (input s) (position s)).
  assert (Hfinish : forall s0 : State, s0 = s ->
            exists s', finish subscript c s0 = Ok s' /\ advances s s').
  { intros s0 ->. unfold finish, comment_end. rewrite Hcom. simpl andM.
    bind_step. unfold classify. rewrite Hcom. simpl negb. cbv iota.
    destruct (dispatch_progress s Hfits Hlt) as (s1 & Hd & Hadv).
    fold c in Hd. rewrite Hd. bind_step. eauto. }
  unfold step.
  destruct (N.ltb_spec (position s) (size (input s))); [|lia].
  rewrite (subscript_inside _ _ Hlt). fold c. bind_step.
  destruct (isWhitespace c).
  { eexists. split; [reflexivity|]. unfold advances. simpl.
    rewrite (incr_below _ _ Hlt Hfits). repeat split; try reflexivity; lia. }
  unfold directive.
  destruct (Ascii.eqb_spec c "#") as [Hhash | Hhash].
  - rewrite Hhash in *.
    destruct (getNextWord_ok _ Hfits (position s)) as [[w q] Hw]; [lia|].
    rewrite Hw. bind_step. simpl andM. bind_step.
    destruct (getNextWord_hash _ _ Hfits Hlt Hhash w q Hw)
      as (posL & HposL & Hsize & Hcur).
    unfold finish, comment_end. simpl. rewrite Hcom. simpl andM. bind_step.
    unfold classify. simpl. rewrite Hcom. simpl negb. cbv iota.
    bind_step.
    eexists. split; [reflexivity|].
    unfold advances, single. simpl. rewrite !lexeme_total_snoc. simpl.
    change (size (string1 "#")) with 1.
    destruct Hcur as [-> | [-> ->]]; [|change (size EmptyString) with 0];
      repeat split; try reflexivity; try lia.
  - bind_step.
    rewrite !(lookahead_char _ _ _ Hfits Hlt).
    destruct (Ascii.eqb_spec c "/") as [Hslash | Hslash]; simpl andM.
    + pose proof (no_block_opener_at _ Hno (position s) Hslash) as Hstar.
      apply Ascii.eqb_neq in Hstar. rewrite Hstar. bind_step.
      destruct (Ascii.eqb _ "/"); bind_step.
      * destruct (line_loop_ok _ Hfits (String.length (input s)) (position s)
                    (size_fuel _ _)) as [p Hloop].
        rewrite Hloop. bind_step.
        pose proof (line_loop_bounds _ Hfits _ _ _ Hloop (N.lt_le_incl _ _ Hlt)).
        pose proof (line_loop_first _ Hfits _ _ _ Hloop Hlt Hslash).
        eexists. split; [reflexivity|]. unfold advances. simpl.
        repeat split; try reflexivity; lia.
      * destruct (Hfinish s eq_refl) as (s' & -> & Hadv). bind_step. eauto.
    + bind_step.
      destruct (Hfinish s eq_refl) as (s' & -> & Hadv). bind_step. eauto.
Qed.

Lemma run_progress fuel :
  forall s,
  fits (input s) ->
  has_block_opener (input s) = false ->
  inMultiLineComment s = false ->
  lexeme_total (tokens s) <= N.min (position s) (size (input s)) ->
  size (input s) <= position s + N.of_nat fuel ->
  exists r, run subscript fuel s = Returned r
            /\ input r = input s
            /\ lexeme_total (tokens r) <= size (input s).
Proof.
  induction fuel as [|fuel IH]; intros s Hfits Hno Hcom Htotal Hfuel.
  - exists s. split; [|split; [reflexivity | lia]].
    apply run_done, step_done. lia.
  - destruct (N.lt_ge_cases (position s) (size (input s))) as [Hlt | Hge].
    + destruct (step_progress s Hfits Hno Hcom Hlt)
        as (s' & Hstep & Hin & Hcom' & Hpos & Hlex).
      rewrite run_unfold, Hstep.
      destruct (IH s') as (r & Hr & Hinr & Hbound).
      * rewrite Hin. exact Hfits.
      * rewrite Hin. exact Hno.
      * rewrite Hcom'. exact Hcom.
      * rewrite Hin. lia.
      * rewrite Hin. lia.
      * exists r. rewrite <- Hin. auto.
    + exists s. split; [|split; [reflexivity | lia]].
      apply run_done, step_done. exact Hge.
Qed.

(** X1.  On every input in which no slash is followed by a star, [tokenize]
    returns, within as many iterations as the input has characters, and the
    lexemes of the tokens it returns are together no longer than the
    input. *)
Theorem tokenize_without_block_comment source :
  fits source ->
  has_block_opener source = false ->
  exists r,
    tokenize subscript (String.length source) source = Returned r
    /\ lexeme_total (tokens r) <= size source.
Proof.
  intros Hfits Hno.
  destruct (run_progress (String.length source) (init source))
    as (r & Hr & _ & Hbound); try assumption; try reflexivity.
  - apply N.le_0_l.
  - exists r. split; assumption.
Qed.

Lemma tokenize_without_block_comment_witness :
  exists r,
    tokenize subscript (String.length "int x; x = 1;") "int x; x = 1;"
    = Returned r
    /\ lexeme_total (tokens r) <= size "int x; x = 1;".
Proof.
  apply (tokenize_without_block_comment "int x; x = 1;").
  - vm_compute. discriminate.
  - reflexivity.
Defined.

Lemma incr_small a : a + 1 < SizeT.modulus -> SizeT.incr a = a + 1.
Proof. intros H. unfold SizeT.incr, SizeT.add, SizeT.wrap. apply N.mod_small. exact H. Qed.

Lemma substring_none n s : String.substring n 0 s = EmptyString.
Proof.
  revert n. induction s as [|c s IH]; intros [|n]; simpl; try reflexivity.
  apply IH.
Qed.

(** ** Leaving a multi-line comment *)

(** X2.  Inside a multi-line comment, on a character that is neither white
    space nor [#], [/] or [*], the loop of [tokenize] never ends: after any
    number of iterations the scan is still running, in the very same
    state. *)
Theorem comment_text_never_left s :
  position s < size (input s) ->
  inMultiLineComment s = true ->
  isWhitespace (char_at (input s) (position s)) = false ->
  Ascii.eqb (char_at (input s) (position s)) "#" = false ->
  Ascii.eqb (char_at (input s) (position s)) "/" = false ->
  Ascii.eqb (char_at (input s) (position s)) "*" = false ->
  forall fuel, run subscript fuel s = Running s.
Proof.
  intros Hlt Hcom Hws Hhash Hslash Hstar. apply run_stuck.
  exact (comment_body_stuck s _ Hlt eq_refl Hws Hhash Hslash Hstar Hcom).
Qed.

Lemma comment_text_never_left_witness :
  run subscript 7 (mkState "/* x */" 3 EmptyString [] true) =
  Running (mkState "/* x */" 3 EmptyString [] true).
Proof.
  refine (comment_text_never_left (mkState "/* x */" 3 EmptyString [] true)
            _ _ _ _ _ _ 7%nat); reflexivity.
Defined.

(** X3.  On the closing marker of a multi-line comment the iteration leaves
    the comment, but it also emits the star as an OPERATOR token, appends it
    to the cleaned text, and moves the cursor by four: the two characters
    after the marker are not scanned. *)
Theorem comment_close_step s :
  fits (input s) ->
  position s < size (input s) ->
  inMultiLineComment s = true ->
  char_at (input s) (position s) = "*"%char ->
  char_at (input s) (position s + 1) = "/"%char ->
  step subscript s =
  Ok (Some (mkState (input s) (position s + 4) (cleanedInput s +:+ "*")
                    (tokens s ++ [mkToken OPERATOR "*"]) false)).
Proof.
  intros Hfits Hlt Hcom Hc Hn.
  assert (Hin : position s + 1 < size (input s)).
  { apply (char_inside _ _ "/" Hn). discriminate. }
  assert (Hmod : forall n, n <= size (input s) + 2 -> n < SizeT.modulus)
    by (intros n; apply fits_below_modulus; exact Hfits).
  unfold step.
  destruct (N.ltb_spec (position s) (size (input s))); [|lia].
  rewrite (subscript_inside _ _ Hlt), Hc. bind_step.
  change (isWhitespace "*") with false. cbv iota.
  unfold directive. change (Ascii.eqb "*" "#") with false. cbv iota. bind_step.
  change (Ascii.eqb "*" "/") with false. simpl andM. bind_step.
  unfold finish, comment_end. rewrite Hcom.
  change (true && Ascii.eqb "*" "*") with true. simpl andM.
  rewrite (lookahead_char _ _ _ Hfits Hlt), Hn. bind_step.
  change (Ascii.eqb "/" "/") with true. cbv iota. bind_step.
  unfold classify. simpl negb. cbv iota.
  change (dispatch subscript "*"
            (with_position (with_comment s false) (SizeT.add (position s) 2)))
    with (Ok (single OPERATOR "*"
                (with_position (with_comment s false)
                               (SizeT.add (position s) 2)))).
  bind_step. unfold single, with_position, with_comment, append_cleaned,
    emplace_back. simpl.
  rewrite (add2_below _ _ Hlt Hfits).
  rewrite (incr_small (position s + 2)) by (apply Hmod; lia).
  rewrite (incr_small (position s + 2 + 1)) by (apply Hmod; lia).
  do 3 f_equal. lia.
Qed.

Lemma comment_close_step_witness :
  step subscript (mkState "/* */ab" 3 EmptyString [] true) =
  Ok (Some (mkState (input (mkState "/* */ab" 3 EmptyString [] true))
                    (position (mkState "/* */ab" 3 EmptyString [] true) + 4)
                    (cleanedInput (mkState "/* */ab" 3 EmptyString [] true)
                     +:+ "*")
                    (tokens (mkState "/* */ab" 3 EmptyString [] true)
                       ++ [mkToken OPERATOR "*"]) false)).
Proof.
  apply (comment_close_step (mkState "/* */ab" 3 EmptyString [] true)).
  - vm_compute. discriminate.
  - vm_compute. reflexivity.
  - reflexivity.
  - reflexivity.
  - reflexivity.
Defined.

(** ** The directive branch *)

Lemma getNextWord_directive inp pos :
  fits inp -> pos < size inp -> char_at inp pos = "#"%char -> pos <> 95 ->
  getNextWord subscript inp pos = Ok (EmptyString, SizeT.decr pos).
Proof.
  intros Hfits Hlt Hc H95. unfold getNextWord.
  rewrite word_loop_eq.
  destruct (N.ltb_spec pos (size inp)); [|lia].
  rewrite (subscript_inside _ _ Hlt), Hc. bind_step.
  change (isAlphaNumeric "#" && negb (Ascii.eqb "#" underscore)) with false.
  cbv iota. bind_step.
  destruct (N.ltb_spec pos (size inp)); [|lia].
  rewrite (subscript_inside _ _ Hlt), Hc. bind_step.
  change (negb (isAlphaNumeric "#")) with true. cbv iota.
  destruct (N.eqb_spec pos (N_of_ascii underscore)) as [He|_].
  { exfalso. apply H95. rewrite He. reflexivity. }
  simpl andM. bind_step. rewrite substr_ok by lia. bind_step.
  rewrite sub_below; [| lia | apply (fits_below_modulus inp); [exact Hfits | lia]].
  rewrite N.sub_diag. change (N.to_nat 0) with 0%nat.
  rewrite substring_none. reflexivity.
Qed.

(** X12.  Outside a comment, a [#] (not at index 95) yields two tokens, a
    KEYWORD with the empty lexeme and UNKNOWN for the [#] itself, and moves
    the cursor by one only: the name of the directive is left to be scanned
    afterwards, as an ordinary word. *)
Theorem directive_step s :
  fits (input s) ->
  position s < size (input s) ->
  inMultiLineComment s = false ->
  char_at (input s) (position s) = "#"%char ->
  position s <> 95 ->
  step subscript s =
  Ok (Some (mkState (input s) (position s + 1) (cleanedInput s +:+ "#")
                    (tokens s ++ [mkToken KEYWORD EmptyString;
                                  mkToken UNKNOWN "#"])
                    false)).
Proof.
  intros Hfits Hlt Hcom Hc H95.
  unfold step.
  destruct (N.ltb_spec (position s) (size (input s))); [|lia].
  rewrite (subscript_inside _ _ Hlt), Hc. bind_step.
  change (isWhitespace "#") with false. cbv iota.
  unfold directive. change (Ascii.eqb "#" "#") with true. cbv iota.
  rewrite (getNextWord_directive _ _ Hfits Hlt Hc H95). bind_step.
  change (Ascii.eqb "#" "/") with false. simpl andM. bind_step.
  unfold finish, comment_end. simpl inMultiLineComment. rewrite Hcom.
  simpl andM. bind_step. unfold classify. simpl inMultiLineComment.
  rewrite Hcom. simpl negb. cbv iota.
  match goal with
  | |- context [dispatch subscript "#" ?s1] =>
      change (dispatch subscript "#" s1) with (Ok (single UNKNOWN "#" s1))
  end.
  bind_step. unfold single, with_position, append_cleaned, emplace_back. simpl.
  rewrite incr_decr
    by (apply (fits_below_modulus (input s)); [exact Hfits | lia]).
  rewrite (incr_below _ _ Hlt Hfits), Hcom, append_nil_r, <- app_assoc.
  reflexivity.
Qed.

Lemma directive_step_witness :
  step subscript (init "#include") =
  Ok (Some (mkState (input (init "#include")) (position (init "#include") + 1)
                    (cleanedInput (init "#include") +:+ "#")
                    (tokens (init "#include")
                       ++ [mkToken KEYWORD EmptyString; mkToken UNKNOWN "#"])
                    false)).
Proof.
  apply (directive_step (init "#include")).
  - vm_compute. discriminate.
  - vm_compute. reflexivity.
  - reflexivity.
  - reflexivity.
  - discriminate.
Defined.

(** ** The comparison of the cursor with the underscore *)

(** X7.  [getNextWord] compares the cursor itself, not the character, with
    the underscore: when the terminator of a word is at index 95 and a letter
    or digit follows it, the terminator is returned as the last character of
    the word and the cursor is left on it. *)
Theorem getNextWord_index_95 pre w t n rest :
  all_chars isAlphaNumeric w ->
  isAlphaNumeric t = false ->
  isAlphaNumeric n = true ->
  size pre + size w = 95 ->
  fits (pre +:+ w +:+ String t (String n rest)) ->
  getNextWord subscript (pre +:+ w +:+ String t (String n rest)) (size pre) =
  Ok (w +:+ string1 t, 95).
Proof.
  intros Hw Ht Hn H95 Hfits. unfold getNextWord.
  set (inp := pre +:+ w +:+ String t (String n rest)) in *.
  assert (Hlen : size inp = size pre + size w + size rest + 2).
  { unfold inp. rewrite !size_app, !size_String. lia. }
  rewrite (word_loop_run w pre (String t (String n rest)) _ Hw);
    [|eauto | exact Hfits |].
  2:{ assert (size w <= size inp) by lia. unfold size in *. lia. }
  bind_step. rewrite H95.
  assert (Hlt : 95 < size inp) by lia.
  destruct (N.ltb_spec 95 (size inp)); [|lia].
  rewrite (subscript_inside _ _ Hlt).
  assert (Hsplit : inp = (pre +:+ w) +:+ String t (String n rest)).
  { unfold inp. rewrite append_assoc. reflexivity. }
  assert (Hc : char_at inp 95 = t).
  { rewrite <- H95, <- size_app, Hsplit. apply char_at_middle. }
  assert (Hc' : char_at inp (95 + 1) = n).
  { rewrite <- H95, <- size_app, Hsplit.
    rewrite char_at_app_r. reflexivity. }
  rewrite Hc. bind_step. rewrite Ht. simpl negb. cbv iota.
  change (95 =? N_of_ascii underscore) with true. simpl andM.
  rewrite (peek_char _ _ Hfits Hlt), Hc'. bind_step. rewrite Hn.
  rewrite (incr_below _ _ Hlt Hfits).
  rewrite substr_ok by lia. bind_step.
  rewrite sub_below; [| lia | apply (fits_below_modulus inp); [exact Hfits | lia]].
  replace (95 + 1 - size pre) with (size (w +:+ string1 t))
    by (rewrite size_app; change (size (string1 t)) with 1; lia).
  unfold size at 1 2. rewrite !Nat2N.id.
  replace inp with (pre +:+ (w +:+ string1 t) +:+ String n rest)
    by (unfold inp; rewrite (append_assoc w); reflexivity).
  rewrite substring_middle. reflexivity.
Qed.

Lemma getNextWord_index_95_witness :
  getNextWord subscript
    (EmptyString
     +:+ "aaaaaaaaaaaaaaaaaaaaaaaaaaaaaaaaaaaaaaaaaaaaaaaaaaaaaaaaaaaaaaaaaaaaaaaaaaaaaaaaaaaaaaaaaaaaaaa"
     +:+ String " " (String "b" ";"))
    (size EmptyString) =
  Ok ("aaaaaaaaaaaaaaaaaaaaaaaaaaaaaaaaaaaaaaaaaaaaaaaaaaaaaaaaaaaaaaaaaaaaaaaaaaaaaaaaaaaaaaaaaaaaaaa"
      +:+ string1 " ", 95).
Proof.
  apply (getNextWord_index_95 EmptyString
           "aaaaaaaaaaaaaaaaaaaaaaaaaaaaaaaaaaaaaaaaaaaaaaaaaaaaaaaaaaaaaaaaaaaaaaaaaaaaaaaaaaaaaaaaaaaaaaa"
           " " "b" ";").
  - repeat constructor.
  - reflexivity.
  - reflexivity.
  - reflexivity.
  - vm_compute. discriminate.
Defined.

Lemma grows_refl s : grows s s.
Proof.
  split; [reflexivity|]. split.
  - exists []. symmetry. apply app_nil_r.
  - exists EmptyString. symmetry. apply append_nil_r.
Qed.

Lemma grows_trans s1 s2 s3 : grows s1 s2 -> grows s2 s3 -> grows s1 s3.
Proof.
  intros (Hi1 & [n1 Ht1] & [x1 Hc1]) (Hi2 & [n2 Ht2] & [x2 Hc2]).
  split; [congruence|]. split.
  - exists (n1 ++ n2). rewrite Ht2, Ht1. symmetry. apply app_assoc.
  - exists (x1 +:+ x2). rewrite Hc2, Hc1. apply append_assoc.
Qed.

Lemma grows_cursor s s' :
  input s' = input s -> tokens s' = tokens s ->
  cleanedInput s' = cleanedInput s -> grows s s'.
Proof.
  intros Hi Ht Hc. split; [exact Hi|]. split.
  - exists []. rewrite Ht. symmetry. apply app_nil_r.
  - exists EmptyString. rewrite Hc. symmetry. apply append_nil_r.
Qed.

Lemma grows_emit s s' t text :
  input s' = input s -> tokens s' = tokens s ++ [t] ->
  cleanedInput s' = cleanedInput s +:+ text -> grows s s'.
Proof. intros Hi Ht Hc. split; [exact Hi|]. split; eauto. Qed.

Section Growth.
Variable idx : Indexing.

Lemma dispatch_grows c s s' : dispatch idx c s = Ok s' -> grows s s'.
Proof.
  unfold dispatch. intros H.
  destruct (isAlpha c).
  { destruct (getNextWord idx _ _) as [[w p]|]; [|discriminate].
    bind_step in H. injection H as <-.
    destruct (is_keyword w); eapply grows_emit; reflexivity. }
  destruct (orb false (Ascii.eqb c underscore)).
  { destruct (underscore_loop idx _ _ _ _) as [[p w]|]; [|discriminate].
    bind_step in H. injection H as <-. eapply grows_emit; reflexivity. }
  destruct (isDigit c).
  { destruct (getNextNumber idx _ _) as [[w p]|]; [|discriminate].
    bind_step in H. injection H as <-. eapply grows_emit; reflexivity. }
  destruct (andM _ (lookahead idx _ _ "<")) as [shl|]; [|discriminate].
  bind_step in H. destruct shl.
  { injection H as <-. eapply grows_emit; reflexivity. }
  destruct (andM _ (lookahead idx _ _ ">")) as [shr|]; [|discriminate].
  bind_step in H. destruct shr.
  { injection H as <-. eapply grows_emit; reflexivity. }
  destruct (is_operator_char c).
  { injection H as <-. eapply grows_emit; reflexivity. }
  destruct (is_separator_char c).
  { injection H as <-. eapply grows_emit; reflexivity. }
  destruct (Ascii.eqb c dquote).
  2:{ injection H as <-. eapply grows_emit; reflexivity. }
  destruct (string_loop idx _ _ _ _ _) as [[p lit]|]; [|discriminate].
  bind_step in H. injection H as <-.
  destruct (String.eqb lit EmptyString).
  - split; [reflexivity|]. split; [exists []; symmetry; apply app_nil_r|].
    eexists. reflexivity.
  - eapply grows_emit; reflexivity.
Qed.

Lemma finish_grows c s s' : finish idx c s = Ok s' -> grows s s'.
Proof.
  unfold finish, comment_end, classify. intros H.
  destruct (andM _ _) as [b|]; [|discriminate]. bind_step in H.
  destruct b; bind_step in H.
  - simpl in H. destruct (dispatch idx c _) as [s1|] eqn:Hd; [|discriminate].
    bind_step in H. injection H as <-. apply dispatch_grows in Hd.
    eapply grows_trans; [|eapply grows_trans; [exact Hd|]];
      apply grows_cursor; reflexivity.
  - destruct (negb _).
    + destruct (dispatch idx c s) as [s1|] eqn:Hd; [|discriminate].
      bind_step in H. injection H as <-. apply dispatch_grows in Hd.
      eapply grows_trans; [exact Hd|]. apply grows_cursor; reflexivity.
    + injection H as <-. apply grows_refl.
Qed.

Lemma step_grows s s' : step idx s = Ok (Some s') -> grows s s'.
Proof.
  unfold step. intros H.
  destruct (position s <? size (input s)); [|discriminate].
  destruct (idx (input s) (position s)) as [c|]; [|discriminate].
  bind_step in H. destruct (isWhitespace c).
  { injection H as <-. apply grows_cursor; reflexivity. }
  assert (Hdir : forall s1, directive idx c s = Ok s1 -> grows s s1).
  { unfold directive. intros s1 Hd. destruct (Ascii.eqb c "#").
    - destruct (getNextWord idx _ _) as [[w p]|]; [|discriminate].
      bind_step in Hd. injection Hd as <-. eapply grows_emit; reflexivity.
    - injection Hd as <-. apply grows_refl. }
  destruct (directive idx c s) as [s1|]; [|discriminate].
  bind_step in H. apply grows_trans with s1; [apply Hdir; reflexivity|].
  clear Hdir.
  destruct (andM _ (lookahead idx _ _ "*")) as [b1|]; [|discriminate].
  bind_step in H. destruct b1.
  { destruct (finish idx c _) as [s2|] eqn:Hf; [|discriminate].
    bind_step in H. injection H as <-. apply finish_grows in Hf.
    eapply grows_trans; [|exact Hf]. apply grows_cursor; reflexivity. }
  destruct (andM _ _) as [b2|]; [|discriminate].
  bind_step in H. destruct b2.
  { destruct (line_loop idx _ _ _) as [p|]; [|discriminate].
    bind_step in H. injection H as <-. apply grows_cursor; reflexivity. }
  destruct (finish idx c s1) as [s2|] eqn:Hf; [|discriminate].
  bind_step in H. injection H as <-. exact (finish_grows _ _ _ Hf).
Qed.

End Growth.

(** X14.  Whatever the indexing policy and the number of iterations, a scan
    keeps its input and only appends to the tokens and to the cleaned text it
    started with: no token already emitted is removed or changed. *)
Theorem run_grows idx fuel s :
  forall r,
  run idx fuel s = Returned r \/ run idx fuel s = Running r ->
  grows s r.
Proof.
  revert s. induction fuel as [|fuel IH]; intros s r.
  - rewrite run_zero. destruct (step idx s) as [[s'|]|f] eqn:Hs.
    + intros [H | H]; [discriminate|]. injection H as <-.
      exact (step_grows idx _ _ Hs).
    + intros [H | H]; [|discriminate]. injection H as <-. apply grows_refl.
    + intros [H | H]; discriminate.
  - rewrite run_unfold. destruct (step idx s) as [[s'|]|f] eqn:Hs.
    + intros H. apply grows_trans with s'; [exact (step_grows idx _ _ Hs)|].
      exact (IH s' r H).
    + intros [H | H]; [|discriminate]. injection H as <-. apply grows_refl.
    + intros [H | H]; discriminate.
Qed.

Lemma run_grows_witness :
  grows (init "int x; x = 1;")
        (mkState "int x; x = 1;" 7 "intx;"
                 [mkToken KEYWORD "int"; mkToken IDENTIFIER "x";
                  mkToken SEPARATOR ";"] false).
Proof.
  apply (run_grows subscript 3 (init "int x; x = 1;")).
  right. vm_compute. reflexivity.
Defined.

(** ** A terminated string literal *)

Lemma string_loop_closed body :
  forall pre rest lit fuel,
  all_chars plain_char body ->
  fits (pre +:+ body +:+ String dquote rest) ->
  (String.length body <= fuel)%nat ->
  string_loop subscript fuel (pre +:+ body +:+ String dquote rest) (size pre)
              lit false =
  Ok (size pre + size body + 1, lit +:+ body).
Proof.
  induction body as [|c body IH]; intros pre rest lit fuel Hbody Hfits Hfuel.
  - change (EmptyString +:+ String dquote rest) with (String dquote rest) in *.
    assert (Hlt : size pre < size (pre +:+ String dquote rest)).
    { rewrite size_app, size_String. lia. }
    rewrite string_loop_closing; [| exact Hlt | apply char_at_middle].
    rewrite (incr_below _ _ Hlt Hfits), append_nil_r, size_nil, N.add_0_r.
    reflexivity.
  - apply Forall_cons in Hbody as [Hc Hbody]. unfold plain_char in Hc.
    apply andb_true_iff in Hc as [Hq Hb].
    apply negb_true_iff in Hq, Hb.
    change (String c body +:+ String dquote rest)
      with (String c (body +:+ String dquote rest)) in *.
    assert (Hlt : size pre < size (pre +:+ String c (body +:+ String dquote rest))).
    { rewrite size_app, size_String. lia. }
    assert (Hsplit : pre +:+ String c (body +:+ String dquote rest)
                     = (pre +:+ string1 c) +:+ body +:+ String dquote rest).
    { rewrite append_assoc. reflexivity. }
    rewrite string_loop_eq.
    destruct (N.ltb_spec (size pre)
                (size (pre +:+ String c (body +:+ String dquote rest)))); [|lia].
    rewrite (subscript_inside _ _ Hlt), char_at_middle. bind_step.
    rewrite Hq, Hb. simpl andb. cbv iota.
    destruct fuel as [|fuel]; [simpl in Hfuel; lia|].
    rewrite (incr_below _ _ Hlt Hfits).
    replace (size pre + 1) with (size (pre +:+ string1 c))
      by (rewrite size_app; reflexivity).
    rewrite Hsplit, IH; [| exact Hbody | rewrite <- Hsplit; exact Hfits
                         | simpl in Hfuel; lia].
    rewrite (append_assoc lit). f_equal. f_equal.
    rewrite size_app, size_String. unfold string1.
    rewrite size_String, size_nil. lia.
Qed.

(** The iteration on a closed string literal without escapes. *)
Lemma step_literal s pre c body rest :
  input s = pre +:+ String dquote (String c body +:+ String dquote rest) ->
  position s = size pre ->
  inMultiLineComment s = false ->
  fits (input s) ->
  all_chars plain_char (String c body) ->
  step subscript s =
  Ok (Some (mkState (input s) (size pre + size (String c body) + 3)
                    (cleanedInput s +:+ quoted (String c body))
                    (tokens s ++ [mkToken LITERAL (String c body)]) false)).
Proof.
  intros Hinput Hpos Hcom Hfits Hbody.
  pose proof (opening_quote_inside s pre _ Hinput Hpos) as Hlt.
  pose proof (opening_quote_char s pre _ Hinput Hpos) as Hc.
  destruct (opening_quote_body s pre _ Hinput Hpos Hfits) as [Hsplit Hincr].
  assert (Hlen : size (input s) = size pre + size (String c body) + size rest + 2).
  { rewrite Hinput, size_app, size_String, size_app, !size_String. lia. }
  assert (Hloop : string_loop subscript (String.length (input s)) (input s)
                    (SizeT.incr (position s)) EmptyString false
                  = Ok (size pre + size (String c body) + 2, String c body)).
  { rewrite Hincr, Hsplit.
    rewrite (string_loop_closed (String c body) _ rest EmptyString _ Hbody).
    - rewrite size_app. change (size (string1 dquote)) with 1.
      do 2 f_equal. lia.
    - rewrite <- Hsplit. exact Hfits.
    - rewrite <- Hsplit.
      assert (size (String c body) <= size (input s)) by lia.
      unfold size in *. lia. }
  rewrite (step_string_literal s _ _ Hlt Hc Hcom Hloop).
  unfold after_literal. simpl String.eqb. cbv iota.
  rewrite incr_upto by (apply (fits_max (input s)); [exact Hfits | lia]).
  do 3 f_equal. lia.
Qed.

(** X13.  Outside a comment, a quoted text that is not empty and holds
    neither a quote nor a backslash yields one LITERAL token whose lexeme is
    the text without its quotes; the text is appended, quoted again, to the
    cleaned text, and the cursor ends two past the closing quote. *)
Theorem string_literal_step s pre c body rest :
  input s = pre +:+ String dquote (String c body +:+ String dquote rest) ->
  position s = size pre ->
  inMultiLineComment s = false ->
  fits (input s) ->
  all_chars plain_char (String c body) ->
  step subscript s =
  Ok (Some (mkState (input s) (size pre + size (String c body) + 3)
                    (cleanedInput s +:+ quoted (String c body))
                    (tokens s ++ [mkToken LITERAL (String c body)]) false)).
Proof. exact (step_literal s pre c body rest). Qed.

Lemma string_literal_step_witness :
  step subscript
       (mkState ("s=" +:+ String dquote ("hi" +:+ String dquote ";x")) 2
                "s=" [mkToken IDENTIFIER "s"; mkToken OPERATOR "="] false) =
  Ok (Some (mkState ("s=" +:+ String dquote ("hi" +:+ String dquote ";x"))
                    (size "s=" + size "hi" + 3)
                    ("s=" +:+ quoted "hi")
                    ([mkToken IDENTIFIER "s"; mkToken OPERATOR "="]
                       ++ [mkToken LITERAL "hi"]) false)).
Proof.
  apply (string_literal_step
           (mkState ("s=" +:+ String dquote ("hi" +:+ String dquote ";x")) 2
                    "s=" [mkToken IDENTIFIER "s"; mkToken OPERATOR "="] false)
           "s=" "h" "i" ";x").
  - reflexivity.
  - reflexivity.
  - reflexivity.
  - vm_compute. discriminate.
  - repeat constructor.
Defined.

Lemma insert_token_lookup m token t v :
  v ∈ default ∅ (insert_token m token !! t) <->
  v ∈ default ∅ (m !! t) \/ (type token = t /\ value token = v).
Proof.
  unfold insert_token. destruct (decide (type token = t)) as [<- | Hne].
  - rewrite lookup_insert_eq. simpl. rewrite elem_of_union, elem_of_singleton.
    intuition congruence.
  - rewrite lookup_insert_ne by exact Hne. intuition congruence.
Qed.

Lemma foldl_insert_token_lookup tokens :
  forall m t v,
  v ∈ default ∅ (foldl insert_token m tokens !! t) <->
  v ∈ default ∅ (m !! t) \/ mkToken t v ∈ tokens.
Proof.
  induction tokens as [|token tokens IH]; intros m t v; simpl.
  - rewrite elem_of_nil. tauto.
  - rewrite IH, insert_token_lookup, elem_of_cons.
    destruct token as [t' v']. simpl.
    split; [intros [[H | [<- <-]] | H] | intros [H | [[= <- <-] | H]]]; auto.
Qed.

Lemma tokenCategories_lookup tokens t v :
  v ∈ default ∅ (tokenCategories tokens !! t) <-> mkToken t v ∈ tokens.
Proof.
  unfold tokenCategories. rewrite foldl_insert_token_lookup, lookup_empty.
  simpl. rewrite elem_of_empty. tauto.
Qed.

(** No group of the map is empty. *)
Lemma foldl_insert_token_nonempty tokens :
  forall m,
  (forall t values, m !! t = Some values -> values <> ∅) ->
  forall t values,
  foldl insert_token m tokens !! t = Some values -> values <> ∅.
Proof.
  induction tokens as [|token tokens IH]; intros m Hm; simpl; [exact Hm|].
  apply IH. intros t values. unfold insert_token.
  destruct (decide (type token = t)) as [<- | Hne].
  - rewrite lookup_insert_eq. intros [= <-]. set_solver.
  - rewrite lookup_insert_ne by exact Hne. apply Hm.
Qed.

Lemma tokenCategories_nonempty tokens t values :
  tokenCategories tokens !! t = Some values -> exists v, v ∈ values.
Proof.
  intros H. apply set_choose_L.
  refine (foldl_insert_token_nonempty tokens ∅ _ t values H).
  intros t' values'. rewrite lookup_empty. discriminate.
Qed.

Lemma set_order_elem values v : v ∈ set_order values <-> v ∈ values.
Proof.
  unfold set_order. rewrite merge_sort_Permutation. apply elem_of_elements.
Qed.

Lemma set_order_sorted values : StronglySorted String.le (set_order values).
Proof. apply StronglySorted_merge_sort; apply _. Qed.

Lemma set_order_NoDup values : NoDup (set_order values).
Proof.
  unfold set_order. rewrite merge_sort_Permutation. apply NoDup_elements.
Qed.

Lemma visit_order_elem m t vs :
  (t, vs) ∈ visit_order m <-> exists values, m !! t = Some values /\ vs = set_order values.
Proof.
  unfold visit_order. rewrite list_elem_of_omap. split.
  - intros (t' & _ & H). destruct (m !! t') as [values|] eqn:Hm; [|discriminate].
    injection H as <- <-. eauto.
  - intros (values & Hm & ->). exists t. split.
    + destruct t; unfold all_token_types; set_solver.
    + rewrite Hm. reflexivity.
Qed.

Lemma omap_tagged_sublist {A B} (f : A -> option (A * B)) (l : list A) :
  (forall x y, f x = Some y -> y.1 = x) ->
  (omap f l).*1 `sublist_of` l.
Proof.
  intros Hf. induction l as [|x l IH]; simpl; [constructor|].
  destruct (f x) as [y|] eqn:Hx; simpl.
  - rewrite (Hf x y Hx). apply sublist_skip. exact IH.
  - apply sublist_cons. exact IH.
Qed.

(** X17.  [getTokenTypeName] gives different names to different
    categories. *)
Theorem getTokenTypeName_distinct t1 t2 :
  getTokenTypeName t1 = getTokenTypeName t2 -> t1 = t2.
Proof. destruct t1, t2; intros H; try reflexivity; discriminate H. Qed.

Lemma getTokenTypeName_distinct_witness : OPERATOR = OPERATOR.
Proof. apply (getTokenTypeName_distinct OPERATOR OPERATOR). reflexivity. Defined.

(** X15.  Each group that [printUniqueTokens] visits is not empty and holds
    exactly the lexemes of the tokens of its category, each once, in
    increasing order. *)
Theorem printed_group tokens t vs :
  (t, vs) ∈ visit_order (tokenCategories tokens) ->
  (forall v, v ∈ vs <-> mkToken t v ∈ tokens)
  /\ NoDup vs
  /\ StronglySorted String.le vs
  /\ vs <> [].
Proof.
  intros (values & Hm & ->)%visit_order_elem.
  split; [|split; [apply set_order_NoDup | split; [apply set_order_sorted|]]].
  - intros v. rewrite set_order_elem, <- tokenCategories_lookup, Hm. reflexivity.
  - destruct (tokenCategories_nonempty _ _ _ Hm) as [v Hv].
    apply set_order_elem in Hv. intros Hnil. rewrite Hnil in Hv.
    apply elem_of_nil in Hv. exact Hv.
Qed.

Lemma printed_group_witness :
  (forall v, v ∈ ["if"; "int"]%string <->
             mkToken KEYWORD v ∈ [mkToken KEYWORD "int"; mkToken IDENTIFIER "x";
                                  mkToken KEYWORD "if"; mkToken KEYWORD "int"])
  /\ NoDup ["if"; "int"]%string
  /\ StronglySorted String.le ["if"; "int"]%string
  /\ ["if"; "int"]%string <> [].
Proof.
  apply (printed_group [mkToken KEYWORD "int"; mkToken IDENTIFIER "x";
                        mkToken KEYWORD "if"; mkToken KEYWORD "int"]
                       KEYWORD ["if"; "int"]%string).
  vm_compute. left.
Defined.

(** X16.  [printUniqueTokens] visits a category exactly when some token has
    it, and it visits the categories in the order of the enumeration, each at
    most once. *)
Theorem printed_categories tokens :
  (forall t, t ∈ (visit_order (tokenCategories tokens)).*1
             <-> exists v, mkToken t v ∈ tokens)
  /\ (visit_order (tokenCategories tokens)).*1 `sublist_of` all_token_types.
Proof.
  split.
  - intros t. rewrite list_elem_of_fmap. split.
    + intros ([t' vs] & -> & Hin). simpl.
      apply printed_group in Hin as (Hvs & _ & _ & Hne).
      destruct vs as [|v vs]; [congruence|]. exists v. apply Hvs. left.
    + intros [v Hv]. apply tokenCategories_lookup in Hv.
      destruct (tokenCategories tokens !! t) as [values|] eqn:Hm;
        [|apply elem_of_empty in Hv; contradiction].
      exists (t, set_order values). split; [reflexivity|].
      apply visit_order_elem. eauto.
  - apply omap_tagged_sublist. intros t y.
    destruct (tokenCategories tokens !! t); [|discriminate].
    intros [= <-]. reflexivity.
Qed.

(** ** The tests on the current character *)

(** X18.  The tests that the loop body applies to the current character
    (white space, [#], letter, underscore, digit, operator, separator, double
    quote) exclude one another: at most one of them holds for any
    character, so the order of the branches decides nothing among them. *)
Theorem character_tests_exclusive c :
  (length (filter (fun b => b = true) (character_tests c)) <= 1)%nat.
Proof.
  destruct c as [[] [] [] [] [] [] [] []]; vm_compute; lia.
Qed.

(** ** Numbers *)

(** The iteration on a number. *)
Lemma step_number s pre d num rest :
  input s = pre +:+ String d num +:+ rest ->
  position s = size pre ->
  inMultiLineComment s = false ->
  fits (input s) ->
  isDigit d = true ->
  number_text (String d num) false = true ->
  number_stops rest (seen_point (String d num) false) ->
  step subscript s =
  Ok (Some (mkState (input s) (size pre + size (String d num) + 1)
                    (cleanedInput s +:+ String d num)
                    (tokens s ++ [mkToken LITERAL (String d num)]) false)).
Proof.
  intros Hinput Hpos Hcom Hfits Hd Hnum Hrest.
  assert (Hlen : size (input s) = size pre + size (String d num) + size rest).
  { rewrite Hinput, !size_app. lia. }
  assert (Hlt : position s < size (input s)).
  { rewrite Hlen, Hpos, size_String. lia. }
  assert (Hc : char_at (input s) (position s) = d).
  { rewrite Hinput, Hpos. apply char_at_middle. }
  assert (Hplain : isWhitespace d = false /\ Ascii.eqb d "#" = false
                   /\ Ascii.eqb d "/" = false /\ isAlpha d = false
                   /\ Ascii.eqb d underscore = false).
  { clear -Hd.
    destruct d as [[] [] [] [] [] [] [] []]; vm_compute in Hd;
      try discriminate Hd; repeat split. }
  destruct Hplain as (Hws & Hhash & Hslash & Halpha & Hunder).
  rewrite (step_plain s d Hlt Hc Hws Hhash Hslash Hcom).
  unfold dispatch. rewrite Halpha, Hunder, Hd. simpl orb. cbv iota.
  rewrite Hinput, Hpos, getNextNumber_number;
    [| exact Hnum | exact Hrest | rewrite <- Hinput; exact Hfits].
  bind_step. unfold with_position, append_cleaned, emplace_back. simpl.
  rewrite incr_upto by (apply (fits_max (input s)); [exact Hfits | lia]).
  rewrite Hcom, <- Hinput. reflexivity.
Qed.

(** X19.  Outside a comment, on a number (digits with at most one decimal
    point, followed by nothing, by a character that is not a digit, or by a
    second point) the iteration emits one LITERAL token with the number as
    lexeme, appends it to the cleaned text, and leaves the cursor two past
    its last character: the character that follows the number is not
    scanned. *)
Theorem number_step s pre d num rest :
  input s = pre +:+ String d num +:+ rest ->
  position s = size pre ->
  inMultiLineComment s = false ->
  fits (input s) ->
  isDigit d = true ->
  number_text (String d num) false = true ->
  number_stops rest (seen_point (String d num) false) ->
  step subscript s =
  Ok (Some (mkState (input s) (size pre + size (String d num) + 1)
                    (cleanedInput s +:+ String d num)
                    (tokens s ++ [mkToken LITERAL (String d num)]) false)).
Proof. exact (step_number s pre d num rest). Qed.

Lemma number_step_witness :
  step subscript (init ("3.14" +:+ ".15")) =
  Ok (Some (mkState (input (init ("3.14" +:+ ".15")))
                    (size EmptyString + size "3.14" + 1)
                    (cleanedInput (init ("3.14" +:+ ".15")) +:+ "3.14")
                    (tokens (init ("3.14" +:+ ".15"))
                       ++ [mkToken LITERAL "3.14"]) false)).
Proof.
  apply (number_step (init ("3.14" +:+ ".15")) EmptyString "3" ".14" ".15").
  - reflexivity.
  - reflexivity.
  - reflexivity.
  - vm_compute. discriminate.
  - reflexivity.
  - reflexivity.
  - split; reflexivity.
Defined.

(** ** Shift operators *)

(** The iteration on a shift operator. *)
Lemma step_shift s c :
  fits (input s) ->
  position s < size (input s) ->
  inMultiLineComment s = false ->
  c = "<"%char \/ c = ">"%char ->
  char_at (input s) (position s) = c ->
  char_at (input s) (position s + 1) = c ->
  step subscript s =
  Ok (Some (mkState (input s) (position s + 3)
                    (cleanedInput s +:+ String c (string1 c))
                    (tokens s ++ [mkToken OPERATOR (String c (string1 c))])
                    false)).
Proof.
  intros Hfits Hlt Hcom Hshift Hc Hn.
  assert (Hin : position s + 1 < size (input s)).
  { apply (char_inside _ _ c Hn). destruct Hshift as [-> | ->]; discriminate. }
  assert (Hplain : isWhitespace c = false /\ Ascii.eqb c "#" = false
                   /\ Ascii.eqb c "/" = false).
  { destruct Hshift as [-> | ->]; repeat split. }
  destruct Hplain as (Hws & Hhash & Hslash).
  rewrite (step_plain s c Hlt Hc Hws Hhash Hslash Hcom).
  assert (Hd : dispatch subscript c s = Ok (shift (String c (string1 c)) s)).
  { unfold dispatch. rewrite !(lookahead_char _ _ _ Hfits Hlt), Hn.
    destruct Hshift as [-> | ->]; reflexivity. }
  rewrite Hd. bind_step.
  unfold shift, with_position, append_cleaned, emplace_back.
  cbn [position input cleanedInput tokens inMultiLineComment].
  rewrite (add2_below _ _ Hlt Hfits), incr_upto, Hcom;
    [|apply (fits_max (input s)); [exact Hfits | lia]].
  do 3 f_equal. lia.
Qed.

(** X20.  Outside a comment, two [<] or two [>] in a row yield one OPERATOR
    token of two characters, appended to the cleaned text, and the cursor
    moves by three: the character that follows the operator is not
    scanned. *)
Theorem shift_step s c :
  fits (input s) ->
  position s < size (input s) ->
  inMultiLineComment s = false ->
  c = "<"%char \/ c = ">"%char ->
  char_at (input s) (position s) = c ->
  char_at (input s) (position s + 1) = c ->
  step subscript s =
  Ok (Some (mkState (input s) (position s + 3)
                    (cleanedInput s +:+ String c (string1 c))
                    (tokens s ++ [mkToken OPERATOR (String c (string1 c))])
                    false)).
Proof. exact (step_shift s c). Qed.

Lemma shift_step_witness :
  step subscript (init ">>=") =
  Ok (Some (mkState (input (init ">>=")) (position (init ">>=") + 3)
                    (cleanedInput (init ">>=") +:+ String ">" (string1 ">"))
                    (tokens (init ">>=")
                       ++ [mkToken OPERATOR (String ">" (string1 ">"))])
                    false)).
Proof.
  apply (shift_step (init ">>=") ">").
  - vm_compute. discriminate.
  - vm_compute. reflexivity.
  - reflexivity.
  - right. reflexivity.
  - reflexivity.
  - reflexivity.
Defined.

(** ** Identifiers that start with an underscore *)

Lemma underscore_loop_run word :
  forall pre rest acc fuel,
  all_chars identifier_char word ->
  identifier_ends rest ->
  fits (pre +:+ word +:+ rest) ->
  (String.length word <= fuel)%nat ->
  underscore_loop subscript fuel (pre +:+ word +:+ rest) (size pre) acc =
  Ok (size pre + size word, acc +:+ word).
Proof.
  induction word as [|c word IH]; intros pre rest acc fuel Hword Hrest Hfits Hfuel.
  - change (EmptyString +:+ rest) with rest in *.
    rewrite underscore_loop_eq, size_nil, N.add_0_r, append_nil_r.
    destruct rest as [|t rest'].
    + rewrite append_nil_r.
      destruct (N.ltb_spec (size pre) (size pre)); [lia | reflexivity].
    + simpl in Hrest. unfold identifier_char in Hrest.
      destruct (N.ltb_spec (size pre) (size (pre +:+ String t rest')))
        as [Hlt|Hge]; [|reflexivity].
      rewrite (subscript_inside _ _ Hlt), char_at_middle. bind_step.
      rewrite Hrest. reflexivity.
  - apply Forall_cons in Hword as [Hc Hword]. unfold identifier_char in Hc.
    change (String c word +:+ rest) with (String c (word +:+ rest)) in *.
    assert (Hlt : size pre < size (pre +:+ String c (word +:+ rest))).
    { rewrite size_app, size_String. lia. }
    assert (Hsplit : pre +:+ String c (word +:+ rest)
                     = (pre +:+ string1 c) +:+ word +:+ rest).
    { rewrite append_assoc. reflexivity. }
    rewrite underscore_loop_eq.
    destruct (N.ltb_spec (size pre) (size (pre +:+ String c (word +:+ rest))));
      [|lia].
    rewrite (subscript_inside _ _ Hlt), char_at_middle. bind_step. rewrite Hc.
    destruct fuel as [|fuel]; [simpl in Hfuel; lia|].
    rewrite (incr_below _ _ Hlt Hfits).
    replace (size pre + 1) with (size (pre +:+ string1 c))
      by (rewrite size_app; reflexivity).
    rewrite Hsplit, IH; [| exact Hword | exact Hrest
                         | rewrite <- Hsplit; exact Hfits | simpl in Hfuel; lia].
    rewrite (append_assoc acc). f_equal. f_equal.
    rewrite size_app, size_String. unfold string1.
    rewrite size_String, size_nil. lia.
Qed.

(** X21.  Outside a comment, an underscore starts an identifier made of the
    longest run of letters, digits and underscores: the iteration emits it as
    IDENTIFIER (never as a keyword), appends it to the cleaned text, and
    leaves the cursor two past its last character. *)
Theorem underscore_step s pre word rest :
  input s = pre +:+ String underscore word +:+ rest ->
  position s = size pre ->
  inMultiLineComment s = false ->
  fits (input s) ->
  all_chars identifier_char word ->
  identifier_ends rest ->
  step subscript s =
  Ok (Some (mkState (input s) (size pre + size (String underscore word) + 1)
                    (cleanedInput s +:+ String underscore word)
                    (tokens s ++ [mkToken IDENTIFIER (String underscore word)])
                    false)).
Proof.
  intros Hinput Hpos Hcom Hfits Hword Hrest.
  assert (Hlen : size (input s)
                 = size pre + size (String underscore word) + size rest).
  { rewrite Hinput, !size_app. lia. }
  assert (Hlt : position s < size (input s)).
  { rewrite Hlen, Hpos, size_String. lia. }
  assert (Hc : char_at (input s) (position s) = underscore).
  { rewrite Hinput, Hpos. apply char_at_middle. }
  rewrite (step_plain s underscore Hlt Hc) by (reflexivity || exact Hcom).
  unfold dispatch.
  change (isAlpha underscore) with false. cbv iota.
  change (false || Ascii.eqb underscore underscore) with true. cbv iota.
  rewrite Hinput, Hpos, underscore_loop_run;
    [| apply Forall_cons; split; [reflexivity | exact Hword] | exact Hrest
     | rewrite <- Hinput; exact Hfits |].
  2:{ rewrite <- Hinput.
      assert (size (String underscore word) <= size (input s)) by lia.
      unfold size in *. lia. }
  bind_step. unfold with_position, append_cleaned, emplace_back. simpl.
  rewrite incr_upto by (apply (fits_max (input s)); [exact Hfits | lia]).
  rewrite Hcom, <- Hinput. reflexivity.
Qed.

Lemma underscore_step_witness :
  step subscript (init (String underscore "a_1" +:+ "=2")) =
  Ok (Some (mkState (input (init (String underscore "a_1" +:+ "=2")))
                    (size EmptyString + size (String underscore "a_1") + 1)
                    (cleanedInput (init (String underscore "a_1" +:+ "=2"))
                     +:+ String underscore "a_1")
                    (tokens (init (String underscore "a_1" +:+ "=2"))
                       ++ [mkToken IDENTIFIER (String underscore "a_1")])
                    false)).
Proof.
  apply (underscore_step (init (String underscore "a_1" +:+ "=2"))
           EmptyString "a_1" "=2").
  - reflexivity.
  - reflexivity.
  - reflexivity.
  - vm_compute. discriminate.
  - repeat constructor.
  - reflexivity.
Defined.

(** * Whole lexemes *)

(** ** A string literal with escapes *)

Lemma drop_backslashes_clean text : backslash ∉ chars (drop_backslashes text).
Proof.
  induction text as [|c text IH]; simpl; [apply not_elem_of_nil|].
  destruct (Ascii.eqb c backslash) eqn:Hc; [exact IH|].
  apply Ascii.eqb_neq in Hc. simpl.
  intros [Heq | Hin]%elem_of_cons; [congruence | exact (IH Hin)].
Qed.

(** The literal loop consumes exactly the inner text and its closing quote,
    and collects the inner text without its backslashes. *)
Lemma string_loop_inner body :
  forall pre lit esc fuel,
  fits (pre +:+ body) ->
  (String.length body <= fuel)%nat ->
  string_loop subscript fuel (pre +:+ body) (size pre) lit esc =
  Ok (size pre + size (literal_inner body esc).1
      + (if (literal_inner body esc).2 then 1 else 0),
      lit +:+ drop_backslashes (literal_inner body esc).1).
Proof.
  induction body as [|c body IH]; intros pre lit esc fuel Hfits Hfuel.
  - rewrite string_loop_eq, (append_nil_r pre). simpl.
    destruct (N.ltb_spec (size pre) (size pre)); [lia|].
    rewrite size_nil, !N.add_0_r, (append_nil_r lit). reflexivity.
  - assert (Hlt : size pre < size (pre +:+ String c body)).
    { rewrite size_app, size_String. lia. }
    assert (Hsplit : pre +:+ String c body = (pre +:+ string1 c) +:+ body).
    { rewrite append_assoc. reflexivity. }
    rewrite string_loop_eq.
    destruct (N.ltb_spec (size pre) (size (pre +:+ String c body))); [|lia].
    rewrite (subscript_inside _ _ Hlt), char_at_middle. bind_step.
    simpl literal_inner.
    destruct (Ascii.eqb c dquote && negb esc).
    { simpl. rewrite (incr_below _ _ Hlt Hfits), size_nil, (append_nil_r lit).
      f_equal; try (apply injective_projections; simpl; [lia | reflexivity]). }
    destruct fuel as [|fuel]; [simpl in Hfuel; lia|].
    rewrite (incr_below _ _ Hlt Hfits).
    replace (size pre + 1) with (size (pre +:+ string1 c))
      by (rewrite size_app; reflexivity).
    assert (Hsz : forall n, size (pre +:+ string1 c) + n = size pre + (n + 1)).
    { intros n. rewrite size_app. change (size (string1 c)) with 1. lia. }
    simpl in Hfuel.
    destruct (Ascii.eqb c backslash) eqn:Hb.
    + rewrite Hsplit, IH; [| rewrite <- Hsplit; exact Hfits | lia].
      destruct (literal_inner body true) as [inner closed]. simpl.
      rewrite Hb, size_String, Hsz. f_equal;
        try (apply injective_projections; simpl; [lia | reflexivity]).
    + rewrite Hsplit, IH; [| rewrite <- Hsplit; exact Hfits | lia].
      destruct (literal_inner body false) as [inner closed]. simpl.
      rewrite Hb, size_String, Hsz, (append_assoc lit). f_equal;
        try (apply injective_projections; simpl; [lia | reflexivity]).
Qed.

(** C10.  The iteration that starts on the opening quote of a string
    literal reads the text up to the first quote that no backslash escapes
    (or up to the end of the input) and leaves the cursor two past that
    quote.  The text without its backslashes is the lexeme of the LITERAL
    token (no token when it is empty) and, between quotes, what is appended
    to the cleaned text: every backslash inside the quotes is dropped from
    both, and the lexeme holds none. *)
Theorem string_literal_escapes s pre body :
  input s = pre +:+ String dquote body ->
  position s = size pre ->
  inMultiLineComment s = false ->
  fits (input s) ->
  step subscript s =
  Ok (Some (mkState
              (input s)
              (size pre + size (literal_inner body false).1
               + (if (literal_inner body false).2 then 3 else 2))
              (cleanedInput s
               +:+ quoted (drop_backslashes (literal_inner body false).1))
              (if String.eqb (drop_backslashes (literal_inner body false).1)
                             EmptyString
               then tokens s
               else tokens s ++
                    [mkToken LITERAL
                             (drop_backslashes (literal_inner body false).1)])
              false))
  /\ backslash ∉ chars (drop_backslashes (literal_inner body false).1).
Proof.
  intros Hinput Hpos Hcom Hfits.
  split; [|apply drop_backslashes_clean].
  pose proof (opening_quote_inside s pre body Hinput Hpos) as Hlt.
  pose proof (opening_quote_char s pre body Hinput Hpos) as Hc.
  destruct (opening_quote_body s pre body Hinput Hpos Hfits) as [Hsplit Hincr].
  assert (Hloop :
    string_loop subscript (String.length (input s)) (input s)
                (SizeT.incr (position s)) EmptyString false
    = Ok (size pre + 1 + size (literal_inner body false).1
          + (if (literal_inner body false).2 then 1 else 0),
          drop_backslashes (literal_inner body false).1)).
  { rewrite Hincr, Hsplit, string_loop_inner.
    - rewrite size_app. reflexivity.
    - rewrite <- Hsplit. exact Hfits.
    - rewrite <- Hsplit, Hinput.
      assert (size body <= size (pre +:+ String dquote body))
        by (rewrite size_app, size_String; lia).
      unfold size in *. lia. }
  rewrite (step_string_literal s _ _ Hlt Hc Hcom Hloop).
  unfold after_literal.
  assert (Hinner : size (literal_inner body false).1
                   + (if (literal_inner body false).2 then 1 else 0)
                   <= size body).
  { clear. generalize false. induction body as [|c body IH]; intros esc; simpl.
    - change (size EmptyString) with 0. lia.
    - destruct (_ && _); simpl.
      + rewrite size_String. change (size EmptyString) with 0. lia.
      + specialize (IH (Ascii.eqb c backslash)).
        destruct (literal_inner body (Ascii.eqb c backslash)) as [inner closed].
        simpl in *. rewrite !size_String. lia. }
  rewrite incr_upto.
  - do 3 f_equal. destruct (literal_inner body false).2; lia.
  - apply (fits_max (input s)); [exact Hfits|].
    rewrite Hinput, size_app, size_String. lia.
Qed.

Lemma string_literal_escapes_witness :
  step subscript
       (init (String dquote ("a" +:+ String backslash (quoted "b")))) =
  Ok (Some (mkState (String dquote ("a" +:+ String backslash (quoted "b"))) 7
                    (quoted ("a" +:+ String dquote "b"))
                    [mkToken LITERAL ("a" +:+ String dquote "b")] false))
  /\ backslash ∉ chars ("a" +:+ String dquote "b").
Proof.
  apply (string_literal_escapes
           (init (String dquote ("a" +:+ String backslash (quoted "b"))))
           EmptyString ("a" +:+ String backslash (quoted "b"))).
  - reflexivity.
  - reflexivity.
  - reflexivity.
  - vm_compute. discriminate.
Defined.

(** ** A word and a last lexeme, scanned twice *)











Lemma tail_follows_nothing t : tail_follows EmptyString t.
Proof. destruct t; reflexivity. Qed.


